(** * NeuralNetworks runtime: strided-slice argument preparation and the
    callback objects that synchronise asynchronous tasks

    Sources embedded here:
    - [nn/common/operations/StridedSlice.cpp]  (module [StridedSlice]):
      the function [stridedSliceGeneric], with the TensorFlow Lite kernel
      call recorded as an effect and the helpers it takes from elsewhere
      as parameters;
    - [nn/runtime/Callbacks.h]                 (module [Callbacks]):
      the classes [CallbackBase], [PreparedModelCallback] and
      [ExecutionCallback]: first each method as a function on the object's
      fields, then sequences of whole calls, then threads that share one
      object and take its lock step by step.  The header defines
      [wait_for], [setOnFinish] and one overload of [notify]; the other
      methods are defined in Callbacks.cpp and are modelled from the spec.
      Line 382 of [wait_for] stores a [bool] in a [std::cv_status]; the
      status that belongs to each [bool] is a parameter throughout.

    The properties follow the two modules, in the same order. *)

From Stdlib Require Import ZArith Bool.
From stdpp Require Import base option list gmap.

(* ===================================================================== *)
(** ** nn/common/operations/StridedSlice.cpp *)
(* ===================================================================== *)

Module StridedSlice.

Local Open Scope Z_scope.

(** [int32_t] values are integers in [-2^31, 2^31); [to_int32] is the
    wrap-around of a conversion or of an arithmetic result to that range. *)
Definition to_int32 (z : Z) : Z := (z + 2 ^ 31) mod 2 ^ 32 - 2 ^ 31.

(** Modelled from the spec: the enumeration [OperandType] is declared in the
    HAL types, outside the sources at hand; the two tensor types the
    function dispatches on are named as in the source, the remaining ones are
    the other operand kinds of the interface. *)
Inductive OperandType :=
| FLOAT32 | INT32 | UINT32
| TENSOR_FLOAT32 | TENSOR_INT32 | TENSOR_QUANT8_ASYMM
| BOOL | TENSOR_QUANT16_SYMM | TENSOR_FLOAT16 | TENSOR_BOOL8 | FLOAT16
| TENSOR_QUANT8_SYMM_PER_CHANNEL | TENSOR_QUANT16_ASYMM
| OEM | TENSOR_OEM_BYTE.

#[global] Instance OperandType_eq_dec : EqDecision OperandType.
Proof. solve_decision. Defined.

(** Modelled from the spec: [Shape] and its two accessors are declared in
    OperationsUtils.h, outside the sources at hand.  The function reads the
    operand type of a shape, its rank and the size of a dimension; sizes are
    [uint32_t] values. *)
Record Shape := mkShape { type : OperandType; dimensions : list Z }.

Definition getNumberOfDimensions (shape : Shape) : nat :=
  length (dimensions shape).

Definition getSizeOfDimension (shape : Shape) (dimensionIdx : nat) : Z :=
  default 0 (dimensions shape !! dimensionIdx).

(** The element type a kernel instance is called at
    ([reinterpret_cast<const float*>] or [reinterpret_cast<const uint8_t*>]). *)
Inductive elem_type := elem_float | elem_uint8.

Section Generic.

(** Collaborators from the TensorFlow Lite reference kernels and from
    CpuOperationUtils.h; none of them is defined in this repository's
    sources, so the function is embedded for every choice of them. *)
Variable ClampedIndex : Z -> Z -> bool -> Z.
Variable ReverseMaskBits : Z -> nat -> Z.
Variable Dims : Type.
Variable convertShapeToDims : Shape -> Dims.

(** One call of [tflite::reference_ops::StridedSlice], with the arguments
    in the order of the source.  The kernel is the only writer of
    [outputData]; the embedding records the call instead of running it. *)
Record kernel_call := StridedSlice_call {
  elem : elem_type;
  input_data : list Z;
  input_dims : Dims;
  begin_mask : Z;
  end_mask : Z;
  starts : list Z;
  stops : list Z;
  strides : list Z;
  output_data : list Z;
  output_dims : Dims
}.

Definition kMaxDim : nat := 4.

(** Modelled from the spec: the macro [NN_OPS_CHECK] is defined in
    OperationsUtils.h, outside the sources at hand.  The source checks with
    it that the "stride value has to be non-zero"; when the condition fails
    the enclosing function returns [false] at once, which the embedding
    writes as [None] for the rest of the loop. *)
Definition NN_OPS_CHECK {A} (v : bool) (k : option A) : option A :=
  if v then k else None.

Section Loop.
Variable inputShape : Shape.
Variable beginData : nat -> Z.
Variable beginMask : Z.
Variable endData : nat -> Z.
Variable endMask : Z.
Variable stridesData : nat -> Z.

(** The first loop, [for (idx = numInputDims - 1; idx >= 0; --idx)]:
    [bounds_loop (S idx)] runs the body at [idx] and goes on with
    [idx - 1]; the three vectors grow by [emplace_back]. *)
Fixpoint bounds_loop (n : nat) (vs : list Z * list Z * list Z)
  : option (list Z * list Z * list Z) :=
  match n with
  | O => Some vs
  | S idx =>
      let '(starts, stops, strides) := vs in
      let dim := to_int32 (getSizeOfDimension inputShape idx) in
      let stride := stridesData idx in
      NN_OPS_CHECK (negb (stride =? 0)) (
        let positiveStride := 0 <? stride in
        let bit := to_int32 (Z.shiftl 1 (Z.of_nat idx)) in
        let begin :=
          if negb (Z.land beginMask bit =? 0)
          then (if positiveStride then 0 else to_int32 (dim - 1))
          else ClampedIndex (beginData idx) dim positiveStride in
        let end_ :=
          if negb (Z.land endMask bit =? 0)
          then (if positiveStride then dim else -1)
          else ClampedIndex (endData idx) dim positiveStride in
        bounds_loop idx
          (starts ++ [begin], stops ++ [end_], strides ++ [stride]))
  end.

(** The second loop, [for (i = numInputDims; i < kMaxDim; i++)]; [n] is
    the number of iterations left. *)
Fixpoint pad_loop (n : nat) (vs : list Z * list Z * list Z)
  : list Z * list Z * list Z :=
  match n with
  | O => vs
  | S n' =>
      let '(starts, stops, strides) := vs in
      pad_loop n' (starts ++ [0], stops ++ [1], strides ++ [1])
  end.

(** [stridedSliceGeneric]: the returned boolean together with the kernel
    calls it made (none, or one).  The arguments [beginData], [endData] and
    [stridesData] are pointers, read at an index; [inputData] and
    [outputData] are handed on to the kernel.  The rank is the size of a
    vector of dimensions, which the cast to [int32_t] leaves as it is. *)
Definition stridedSliceGeneric (inputData outputData : list Z)
  (outputShape : Shape) : bool * list kernel_call :=
  let numInputDims := getNumberOfDimensions inputShape in
  match bounds_loop numInputDims ([], [], []) with
  | None => (false, [])
  | Some vs =>
      let '(starts, stops, strides) :=
        pad_loop (kMaxDim - numInputDims) vs in
      let beginMask' := ReverseMaskBits beginMask numInputDims in
      let endMask' := ReverseMaskBits endMask numInputDims in
      if decide (type inputShape = TENSOR_FLOAT32) then
        (true, [StridedSlice_call elem_float inputData
                  (convertShapeToDims inputShape)
                  beginMask' endMask' starts stops strides
                  outputData (convertShapeToDims outputShape)])
      else if decide (type inputShape = TENSOR_QUANT8_ASYMM) then
        (true, [StridedSlice_call elem_uint8 inputData
                  (convertShapeToDims inputShape)
                  beginMask' endMask' starts stops strides
                  outputData (convertShapeToDims outputShape)])
      else (false, [])
  end.

(** The bounds as the description of the function words them, one
    dimension at a time, to be compared with what the loops build:
    [0] or [dim - 1] (resp. [dim] or [-1]) by the sign of the stride when
    the mask bit of the dimension is set, the clamped index otherwise. *)
Definition described_begin (idx : nat) : Z :=
  let dim := to_int32 (getSizeOfDimension inputShape idx) in
  let positiveStride := 0 <? stridesData idx in
  if Z.testbit beginMask (Z.of_nat idx)
  then (if positiveStride then 0 else to_int32 (dim - 1))
  else ClampedIndex (beginData idx) dim positiveStride.

Definition described_end (idx : nat) : Z :=
  let dim := to_int32 (getSizeOfDimension inputShape idx) in
  let positiveStride := 0 <? stridesData idx in
  if Z.testbit endMask (Z.of_nat idx)
  then (if positiveStride then dim else -1)
  else ClampedIndex (endData idx) dim positiveStride.

(** Dimensions from the last down to the first, then the padding up to
    four positions. *)
Definition described (per_dim : nat -> Z) (padding : Z) : list Z :=
  let rank := getNumberOfDimensions inputShape in
  (per_dim <$> reverse (seq 0 rank)) ++ replicate (4 - rank) padding.

End Loop.
End Generic.

Arguments StridedSlice_call {Dims}.
Arguments elem {Dims}.
Arguments input_data {Dims}.
Arguments input_dims {Dims}.
Arguments begin_mask {Dims}.
Arguments end_mask {Dims}.
Arguments starts {Dims}.
Arguments stops {Dims}.
Arguments strides {Dims}.
Arguments output_data {Dims}.
Arguments output_dims {Dims}.

(** The collaborators as TensorFlow Lite's strided_slice_logic.h has them,
    for running the function on concrete inputs. *)
Definition Clamp (v lo hi : Z) : Z :=
  if hi <? v then hi else if v <? lo then lo else v.

Definition tflite_ClampedIndex (index dim : Z) (pos_stride : bool) : Z :=
  if pos_stride
  then (if dim <=? index then dim
        else Clamp (index + (if index <? 0 then dim else 0)) 0 dim)
  else (if index <? - dim then -1
        else Clamp (index + (if index <? 0 then dim else 0)) (-1) (dim - 1)).

Fixpoint tflite_ReverseMaskBits_loop (num_dimensions : nat) (mask out : Z) : Z :=
  match num_dimensions with
  | O => out
  | S n =>
      tflite_ReverseMaskBits_loop n (Z.shiftr mask 1)
        (Z.shiftl out 1 + Z.land mask 1)
  end.

Definition tflite_ReverseMaskBits (mask : Z) (num_dimensions : nat) : Z :=
  tflite_ReverseMaskBits_loop num_dimensions mask 0.

End StridedSlice.

(* ===================================================================== *)
(** ** nn/runtime/Callbacks.h *)
(* ===================================================================== *)

Module Callbacks.

(** [V1_0::ErrorStatus], with the values the header's documentation lists. *)
Inductive ErrorStatus :=
| NONE | DEVICE_UNAVAILABLE | GENERAL_FAILURE
| OUTPUT_INSUFFICIENT_SIZE | INVALID_ARGUMENT.

(** [std::cv_status]. *)
Inductive cv_status := no_timeout | timeout.

#[global] Instance ErrorStatus_eq_dec : EqDecision ErrorStatus.
Proof. solve_decision. Defined.
#[global] Instance cv_status_eq_dec : EqDecision cv_status.
Proof. solve_decision. Defined.

Definition thread_id := nat.

(** Line 382 of Callbacks.h initialises a [std::cv_status] from the [bool]
    that the predicate form of [std::condition_variable::wait_for] returns.
    C++ has no conversion from [bool] to that enumeration, so the status
    that belongs to each [bool] is a parameter of [wait_for] below.  Two
    candidates: the one that the header's documentation of [wait_for]
    describes ("no_timeout if the callback was notified before the time
    duration expired, timeout otherwise"), and the one that keeps the value
    (the enumerators are [no_timeout], 0, and [timeout], 1, in this
    order). *)
Definition cv_status_as_documented (b : bool) : cv_status :=
  if b then no_timeout else timeout.

Definition cv_status_by_value (b : bool) : cv_status :=
  if b then timeout else no_timeout.

(** [std::thread] in the hands of a caller: a handle that either represents
    a thread of execution ([Some], joinable) or none ([None]:
    default-constructed or moved-from). *)
Definition std_thread := option thread_id.
Definition joinable (t : std_thread) : bool :=
  match t with Some _ => true | None => false end.

(** Modelled from the spec: what the object keeps of its bound thread.  The
    methods that read and write [mThread] are defined in Callbacks.cpp,
    outside the sources at hand.  The spec has "boundThread:
    optional<thread handle>", of which "at most one may be attached"; the
    object is "mutated by exactly one completion call and by at most one
    bound/join pair"; [join_thread] "reclaims the bound thread if one
    exists and has not yet been reclaimed"; a "double bind_thread" is a
    "defensive-return failure".  So a bound thread stays the object's bound
    thread once it has been reclaimed. *)
Inductive bound_thread :=
| thread_none                        (* no thread has been bound *)
| thread_bound (t : thread_id)       (* bound, not yet reclaimed *)
| thread_reclaimed (t : thread_id).  (* bound, and joined since *)

#[global] Instance bound_thread_eq_dec : EqDecision bound_thread.
Proof. solve_decision. Defined.

(** The thread bound to the object, reclaimed or not. *)
Definition bound_to (th : bound_thread) : option thread_id :=
  match th with
  | thread_none => None
  | thread_bound t => Some t
  | thread_reclaimed t => Some t
  end.

(** The target of a [std::function<bool(void)>]: which function it is and
    the value it returns when invoked.  The bound function may not touch
    the callback object, so invoking it leaves the object as it is. *)
Record target := Target { target_name : nat; target_result : bool }.

#[global] Instance target_eq_dec : EqDecision target.
Proof. solve_decision. Defined.

(** [std::function<bool(void)>]: [None] is the empty function, the one that
    compares equal to [nullptr]. *)
Definition std_function := option target.

(** What a method does beyond the object's own fields.  An effect stands
    for a call that has returned; how long it took is not recorded. *)
Inductive effect :=
| invoked (f : target)        (* mPostWork() was called and has returned *)
| joined (t : thread_id).     (* mThread.join() was called and has returned *)

#[global] Instance effect_eq_dec : EqDecision effect.
Proof. solve_decision. Defined.

(** The data members of [CallbackBase] that hold values; [mMutex] and
    [mCondition] are part of the scheduling state further down. *)
Record CallbackBase := mkCallbackBase {
  mNotified : bool;
  mPostWork : std_function;
  mThread : bound_thread
}.

(** Modelled from the spec: the constructor is defined in Callbacks.cpp,
    outside the sources at hand; an object is "created pending", with no
    deferred work and no bound thread. *)
Definition CallbackBase_new : CallbackBase :=
  {| mNotified := false; mPostWork := None; mThread := thread_none |}.

(** *** Method bodies, as run by one thread while it holds [mMutex] *)

(** Modelled from the spec: [join_thread_locked] is defined in
    Callbacks.cpp, outside the sources at hand; it "reclaims the bound
    thread if one exists and has not yet been reclaimed", one physical
    join. *)
Definition join_thread_locked (this : CallbackBase)
  : CallbackBase * list effect :=
  match mThread this with
  | thread_bound t =>
      ({| mNotified := mNotified this; mPostWork := mPostWork this;
          mThread := thread_reclaimed t |}, [joined t])
  | _ => (this, [])
  end.

(** Modelled from the spec: [join_thread] is defined in Callbacks.cpp; it
    is [join_thread_locked] under the lock. *)
Definition join_thread (this : CallbackBase) : CallbackBase * list effect :=
  join_thread_locked this.

(** [std::condition_variable::wait (lock, pred)] at the moment the waiting
    thread holds the lock and evaluates [pred]: it returns when the
    predicate holds and goes (back) to sleep otherwise ([None]). *)
Definition condition_wait (pred : bool) : option unit :=
  if pred then Some () else None.

(** [std::condition_variable::wait_for (lock, rel_time, pred)], the form
    with a predicate, at a moment the waiting thread holds the lock and
    evaluates [pred], [elapsed] time units after this wait began.  It
    returns the value of the predicate: [true] as soon as the predicate
    holds, [false] when it does not and [rel_time] has gone by; otherwise
    the thread sleeps on ([None]). *)
Definition condition_wait_for (rel_time elapsed : nat) (pred : bool)
  : option bool :=
  if pred then Some true
  else if bool_decide (rel_time ≤ elapsed) then Some false
  else None.

(** Modelled from the spec: [wait] is defined in Callbacks.cpp; it "blocks
    the calling thread until [notified] becomes true" and "returns only
    after the completion flip, and after any bound thread has been
    reclaimed". *)
Definition wait (this : CallbackBase) : option (CallbackBase * list effect) :=
  _ ← condition_wait (mNotified this);
  Some (join_thread_locked this).

(** Modelled from the spec: [on_finish] is defined in Callbacks.cpp; it
    "registers deferredWork" and "fails (returns false) if work is
    empty/unset or if a deferred work item is already registered". *)
Definition on_finish (post_work : std_function) (this : CallbackBase)
  : bool * CallbackBase :=
  match mPostWork this, post_work with
  | Some _, _ => (false, this)
  | None, None => (false, this)
  | None, Some f =>
      (true, {| mNotified := mNotified this; mPostWork := Some f;
                mThread := mThread this |})
  end.

(** Modelled from the spec: [bind_thread] is defined in Callbacks.cpp; it
    "attaches a joinable thread to the object" and "fails (returns false)
    if a thread is already bound or if the supplied thread is not in a
    joinable state".  The third component is the caller's [std::thread]
    after the call: emptied when the object took it over by [std::move],
    untouched when the call failed. *)
Definition bind_thread (asyncThread : std_thread) (this : CallbackBase)
  : bool * CallbackBase * std_thread :=
  match mThread this, asyncThread with
  | thread_none, Some t =>
      (true,
       {| mNotified := mNotified this; mPostWork := mPostWork this;
          mThread := thread_bound t |},
       None)
  | _, _ => (false, this, asyncThread)
  end.

(** Modelled from the spec: [notify] is defined in Callbacks.cpp; it "sets
    [notified], runs [deferredWork] exactly once if registered, then
    releases all current and future waiters", all mutation being
    "serialized through one internal mutual-exclusion mechanism".  The two
    statements under the lock are kept apart: the flip, then the deferred
    work. *)
Definition notify_flip (this : CallbackBase) : CallbackBase :=
  {| mNotified := true; mPostWork := mPostWork this;
     mThread := mThread this |}.

Definition notify_work (this : CallbackBase) : list effect :=
  match mPostWork this with
  | Some f => [invoked f]
  | None => []
  end.

Definition notify (this : CallbackBase) : CallbackBase * list effect :=
  let this' := notify_flip this in (this', notify_work this').

(** *** PreparedModelCallback *)

(** [sp<IPreparedModel>]: a reference to a prepared model, or [nullptr]. *)
Definition sp_IPreparedModel := option nat.

Record PreparedModelCallback := mkPreparedModelCallback {
  pm_base : CallbackBase;
  pm_mErrorStatus : ErrorStatus;
  pm_mPreparedModel : sp_IPreparedModel
}.

(** Modelled from the spec: the two completion entry points are defined in
    Callbacks.cpp; each "stores status and artifact, then calls the base
    [notify()]". *)
Definition pm_notify (status : ErrorStatus) (preparedModel : sp_IPreparedModel)
  (this : PreparedModelCallback) : PreparedModelCallback * list effect :=
  let mErrorStatus := status in
  let mPreparedModel := preparedModel in
  let '(base, effects) := notify (pm_base this) in
  ({| pm_base := base; pm_mErrorStatus := mErrorStatus;
      pm_mPreparedModel := mPreparedModel |}, effects).

Definition pm_notify_1_2 (status : ErrorStatus)
  (preparedModel : sp_IPreparedModel) (this : PreparedModelCallback)
  : PreparedModelCallback * list effect :=
  let mErrorStatus := status in
  let mPreparedModel := preparedModel in
  let '(base, effects) := notify (pm_base this) in
  ({| pm_base := base; pm_mErrorStatus := mErrorStatus;
      pm_mPreparedModel := mPreparedModel |}, effects).

(** Modelled from the spec: the readers are defined in Callbacks.cpp;
    [getStatus] "blocks (via [wait()]) until completion, then returns
    [status]", [getPreparedModel] likewise returns the stored reference. *)
Definition pm_getStatus (this : PreparedModelCallback)
  : option (ErrorStatus * PreparedModelCallback * list effect) :=
  '(base, effects) ← wait (pm_base this);
  Some (pm_mErrorStatus this,
        {| pm_base := base; pm_mErrorStatus := pm_mErrorStatus this;
           pm_mPreparedModel := pm_mPreparedModel this |}, effects).

Definition pm_getPreparedModel (this : PreparedModelCallback)
  : option (sp_IPreparedModel * PreparedModelCallback * list effect) :=
  '(base, effects) ← wait (pm_base this);
  Some (pm_mPreparedModel this,
        {| pm_base := base; pm_mErrorStatus := pm_mErrorStatus this;
           pm_mPreparedModel := pm_mPreparedModel this |}, effects).

(** *** ExecutionCallback *)

Record OutputShape := mkOutputShape {
  os_dimensions : list N;
  os_isSufficient : bool
}.

(** [ExecutionFinish = std::function<ErrorStatus(ErrorStatus)>], possibly
    empty. *)
Definition ExecutionFinish := option (ErrorStatus -> ErrorStatus).

Record ExecutionCallback := mkExecutionCallback {
  ex_base : CallbackBase;
  ex_mErrorStatus : ErrorStatus;
  ex_mOutputShapes : list OutputShape;
  ex_mOnFinish : ExecutionFinish
}.

(** [ExecutionCallback::setOnFinish], Callbacks.h line 368. *)
Definition setOnFinish (finish : ExecutionFinish) (this : ExecutionCallback)
  : ExecutionCallback :=
  {| ex_base := ex_base this; ex_mErrorStatus := ex_mErrorStatus this;
     ex_mOutputShapes := ex_mOutputShapes this; ex_mOnFinish := finish |}.

(** Modelled from the spec: [notify_1_2] is defined in Callbacks.cpp; "if a
    finishTransform was registered, it is applied to status before storage",
    then the entry point "stores (possibly transformed) status and
    outputShapes, then calls the base [notify()]". *)
Definition notify_1_2 (status : ErrorStatus) (outputShapes : list OutputShape)
  (this : ExecutionCallback) : ExecutionCallback * list effect :=
  let mErrorStatus :=
    match ex_mOnFinish this with
    | Some finish => finish status
    | None => status
    end in
  let mOutputShapes := outputShapes in
  let '(base, effects) := notify (ex_base this) in
  ({| ex_base := base; ex_mErrorStatus := mErrorStatus;
      ex_mOutputShapes := mOutputShapes;
      ex_mOnFinish := ex_mOnFinish this |}, effects).

(** Modelled from the spec: the plain-status entry point is defined in
    Callbacks.cpp; it completes the object like [notify_1_2], and
    "[getOutputShapes()] returns an empty sequence if the object was
    completed via the plain-status entry point". *)
Definition notify_status (status : ErrorStatus) (this : ExecutionCallback)
  : ExecutionCallback * list effect :=
  notify_1_2 status [] this.

(** The overload [notify (status, outputShapes)], Callbacks.h lines
    323-326. *)
Definition notify_overload (status : ErrorStatus)
  (outputShapes : list OutputShape) (this : ExecutionCallback)
  : ExecutionCallback * list effect :=
  notify_1_2 status outputShapes this.

(** Modelled from the spec: the readers are defined in Callbacks.cpp; both
    "block until completion" and return the stored field. *)
Definition getStatus (this : ExecutionCallback)
  : option (ErrorStatus * ExecutionCallback * list effect) :=
  '(base, effects) ← wait (ex_base this);
  Some (ex_mErrorStatus this,
        {| ex_base := base; ex_mErrorStatus := ex_mErrorStatus this;
           ex_mOutputShapes := ex_mOutputShapes this;
           ex_mOnFinish := ex_mOnFinish this |}, effects).

Definition getOutputShapes (this : ExecutionCallback)
  : option (list OutputShape * ExecutionCallback * list effect) :=
  '(base, effects) ← wait (ex_base this);
  Some (ex_mOutputShapes this,
        {| ex_base := base; ex_mErrorStatus := ex_mErrorStatus this;
           ex_mOutputShapes := ex_mOutputShapes this;
           ex_mOnFinish := ex_mOnFinish this |}, effects).

(** *** Calls on one [CallbackBase] object *)

Inductive call :=
| call_wait
| call_wait_for (timeout_duration : nat)
| call_on_finish (post_work : std_function)
| call_bind_thread (asyncThread : std_thread)
| call_join_thread
| call_notify.

Inductive result :=
| ret_void
| ret_bool (b : bool)
| ret_cv_status (s : cv_status).

#[global] Instance call_eq_dec : EqDecision call.
Proof. solve_decision. Defined.
#[global] Instance result_eq_dec : EqDecision result.
Proof. solve_decision. Defined.

(** A successful [on_finish] earlier in a sequence of calls. *)
Definition registered_before (cs : list (call * nat)) (rs : list result) : Prop :=
  exists i f elapsed,
    cs !! i = Some (call_on_finish f, elapsed) /\ rs !! i = Some (ret_bool true).

(** A successful [bind_thread (t)] earlier in a sequence of calls. *)
Definition bound_before (t : thread_id) (cs : list (call * nat))
  (rs : list result) : Prop :=
  exists i elapsed,
    cs !! i = Some (call_bind_thread (Some t), elapsed)
    /\ rs !! i = Some (ret_bool true).

(** The number of [bind_thread] calls of a sequence that returned true. *)
Fixpoint successful_binds (cs : list (call * nat)) (rs : list result) : nat :=
  match cs, rs with
  | (call_bind_thread _, _) :: cs', ret_bool true :: rs' =>
      S (successful_binds cs' rs')
  | _ :: cs', _ :: rs' => successful_binds cs' rs'
  | _, _ => 0
  end.

(** *** Threads sharing one [CallbackBase] object

    Every method takes [mMutex] first and holds it to its end, except that
    a wait on [mCondition] gives the lock back while the thread sleeps.  So
    a thread inside a call is at one of four places: before the lock
    ([pc_entry]); asleep on [mCondition], the lock released, in a wait that
    began at instant [since] ([pc_sleep]); inside [notify] between the flip
    and the deferred work ([pc_notify_work]); or at the end of the body
    with the result in hand ([pc_unlock]).  A thread that is not in the
    table is outside any call. *)
Inductive pc :=
| pc_entry (c : call)
| pc_sleep (c : call) (since : nat)
| pc_notify_work
| pc_unlock (c : call) (r : result).

Inductive event :=
| ev_call (c : call)               (* a thread enters a method *)
| ev_flip                          (* mNotified = true *)
| ev_effect (e : effect)
| ev_return (c : call) (r : result). (* the method returns to its caller *)

#[global] Instance event_eq_dec : EqDecision event.
Proof. solve_decision. Defined.

Record world := mkWorld {
  object : CallbackBase;
  mMutex : option thread_id;          (* the thread that holds the lock *)
  threads : gmap thread_id pc;
  now : nat;                          (* one instant per step *)
  history : list (nat * thread_id * event)
}.

Definition world_new : world :=
  {| object := CallbackBase_new; mMutex := None; threads := ∅;
     now := 0; history := [] |}.

Inductive label :=
| tick                                 (* time passes *)
| invoke (t : thread_id) (c : call)    (* thread t calls method c *)
| advance (t : thread_id).             (* thread t takes its next step *)

Definition log (w : world) (t : thread_id) (es : list event)
  : list (nat * thread_id * event) :=
  history w ++ ((λ e, (now w, t, e)) <$> es).

(** The call of a thread that stands before the lock, and for how long its
    wait on [mCondition] has lasted: not at all when the thread has not had
    the lock yet. *)
Definition at_lock (now : nat) (p : pc) : option (call * nat) :=
  match p with
  | pc_entry c => Some (c, 0)
  | pc_sleep c since => Some (c, now - since)
  | _ => None
  end.

(** The calls that wait on [mCondition]. *)
Definition waits (c : call) : bool :=
  match c with
  | call_wait => true
  | call_wait_for _ => true
  | _ => false
  end.

(** A thread past the lock holds it. *)
Definition holds_lock (p : pc) : bool :=
  match p with
  | pc_entry _ => false
  | pc_sleep _ _ => false
  | _ => true
  end.

(** A thread that has entered [notify] and not yet run the deferred work. *)
Definition in_notify (p : pc) : bool :=
  match p with
  | pc_entry call_notify => true
  | pc_notify_work => true
  | _ => false
  end.

(** Before [notify] has been called at all. *)
Definition before_notify (w : world) : Prop :=
  (forall tid p, threads w !! tid = Some p -> in_notify p = false)
  /\ mNotified (object w) = false.

(** Where the thread that called [notify] is: before the flip, between the
    flip and the deferred work, or past the deferred work (possibly back
    outside, or inside some other call). *)
Inductive stage := stage_entry | stage_work | stage_past.

Definition notify_stage (p : option pc) : stage :=
  match p with
  | Some (pc_entry call_notify) => stage_entry
  | Some pc_notify_work => stage_work
  | _ => stage_past
  end.

(** *** Calls on one [PreparedModelCallback] object

    The methods inherited from [CallbackBase], the two completion entry
    points and the two readers. *)
Inductive pm_call :=
| pm_call_base (c : call)
| pm_call_notify (status : ErrorStatus) (preparedModel : sp_IPreparedModel)
| pm_call_notify_1_2 (status : ErrorStatus) (preparedModel : sp_IPreparedModel)
| pm_call_getStatus
| pm_call_getPreparedModel.

Inductive pm_result :=
| pm_ret (r : result)
| pm_ret_status (s : ErrorStatus)
| pm_ret_model (m : sp_IPreparedModel).

Definition pm_completes (c : pm_call) : bool :=
  match c with
  | pm_call_base call_notify => true
  | pm_call_notify _ _ => true
  | pm_call_notify_1_2 _ _ => true
  | _ => false
  end.

(** *** [wait_for] and what is built on it *)

Section WaitFor.

(** The status that line 382 gives to each outcome of the wait. *)
Variable to_cv_status : bool -> cv_status.

(** [CallbackBase::wait_for], Callbacks.h lines 379-387; [elapsed] is the
    time since [mCondition.wait_for] was called, which the thread does once
    it holds [mMutex]. *)
Definition wait_for (timeout_duration elapsed : nat) (this : CallbackBase)
  : option (cv_status * CallbackBase * list effect) :=
  notified ← condition_wait_for timeout_duration elapsed (mNotified this);
  let status := to_cv_status notified in
  if decide (status ≠ timeout) then
    let '(this', effects) := join_thread_locked this in
    Some (status, this', effects)
  else Some (status, this, []).

(** What a call does between taking [mMutex] and giving it back, [elapsed]
    time units after its wait began; [None] when the condition variable
    puts the caller (back) to sleep. *)
Definition locked_body (c : call) (elapsed : nat) (this : CallbackBase)
  : option (result * CallbackBase * list effect) :=
  match c with
  | call_wait =>
      '(this', effects) ← wait this; Some (ret_void, this', effects)
  | call_wait_for d =>
      '(status, this', effects) ← wait_for d elapsed this;
      Some (ret_cv_status status, this', effects)
  | call_on_finish post_work =>
      let '(b, this') := on_finish post_work this in
      Some (ret_bool b, this', [])
  | call_bind_thread asyncThread =>
      let '(b, this', _) := bind_thread asyncThread this in
      Some (ret_bool b, this', [])
  | call_join_thread =>
      let '(this', effects) := join_thread this in
      Some (ret_void, this', effects)
  | call_notify =>
      let '(this', effects) := notify this in
      Some (ret_void, this', effects)
  end.

(** A sequence of calls, each run to its end before the next one starts;
    every call comes with the time its wait had lasted when it got the
    lock.  The outcome lists the results and the effects in order. *)
Fixpoint run_calls (cs : list (call * nat)) (this : CallbackBase)
  : option (list result * CallbackBase * list effect) :=
  match cs with
  | [] => Some ([], this, [])
  | (c, elapsed) :: cs' =>
      '(r, this', effects) ← locked_body c elapsed this;
      '(rs, this'', effects') ← run_calls cs' this';
      Some (r :: rs, this'', effects ++ effects')
  end.

(** The objects that some sequence of whole calls leads to from a fresh
    object. *)
Definition reached_by_calls (this : CallbackBase) : Prop :=
  exists cs rs effects,
    run_calls cs CallbackBase_new = Some (rs, this, effects).

(** One step of one thread.  A thread before the lock needs the lock to be
    free.  With the lock it runs its body; where the body waits on
    [mCondition] and finds the flag unset, the thread gives the lock back
    and sleeps, and its wait has begun at this instant.  A sleeping thread
    takes its next step when the lock is free and its wait ends: the flag
    is set, or the duration has gone by since the wait began.  (How long a
    join takes is not part of the model: the step that joins stands for the
    whole call of [join].) *)
Definition step (w : world) (l : label) : option world :=
  match l with
  | tick =>
      Some {| object := object w; mMutex := mMutex w; threads := threads w;
              now := S (now w); history := history w |}
  | invoke t c =>
      match threads w !! t with
      | Some _ => None
      | None =>
          Some {| object := object w; mMutex := mMutex w;
                  threads := <[t := pc_entry c]> (threads w);
                  now := S (now w); history := log w t [ev_call c] |}
      end
  | advance t =>
      match threads w !! t with
      | None => None
      | Some (pc_entry c) =>
          match mMutex w with
          | Some _ => None
          | None =>
              match c with
              | call_notify =>
                  Some {| object := notify_flip (object w);
                          mMutex := Some t;
                          threads := <[t := pc_notify_work]> (threads w);
                          now := S (now w); history := log w t [ev_flip] |}
              | _ =>
                  if waits c && negb (mNotified (object w)) then
                    Some {| object := object w; mMutex := None;
                            threads :=
                              <[t := pc_sleep c (now w)]> (threads w);
                            now := S (now w); history := history w |}
                  else
                    '(r, this', effects) ← locked_body c 0 (object w);
                    Some {| object := this'; mMutex := Some t;
                            threads := <[t := pc_unlock c r]> (threads w);
                            now := S (now w);
                            history := log w t (ev_effect <$> effects) |}
              end
          end
      | Some (pc_sleep c since) =>
          match mMutex w with
          | Some _ => None
          | None =>
              match c with
              | call_notify => None
              | _ =>
                  '(r, this', effects) ←
                    locked_body c (now w - since) (object w);
                  Some {| object := this'; mMutex := Some t;
                          threads := <[t := pc_unlock c r]> (threads w);
                          now := S (now w);
                          history := log w t (ev_effect <$> effects) |}
              end
          end
      | Some pc_notify_work =>
          Some {| object := object w; mMutex := mMutex w;
                  threads := <[t := pc_unlock call_notify ret_void]> (threads w);
                  now := S (now w);
                  history :=
                    log w t (ev_effect <$> notify_work (object w)) |}
      | Some (pc_unlock c r) =>
          Some {| object := object w; mMutex := None;
                  threads := delete t (threads w);
                  now := S (now w); history := log w t [ev_return c r] |}
      end
  end.

Fixpoint run (w : world) (ls : list label) : option world :=
  match ls with
  | [] => Some w
  | l :: ls' => w' ← step w l; run w' ls'
  end.

(** The same steps as a relation, one rule per kind of step. *)
Inductive step_case (w : world) : label -> world -> Prop :=
| step_tick :
    step_case w tick
      {| object := object w; mMutex := mMutex w; threads := threads w;
         now := S (now w); history := history w |}
| step_invoke t c :
    threads w !! t = None ->
    step_case w (invoke t c)
      {| object := object w; mMutex := mMutex w;
         threads := <[t := pc_entry c]> (threads w);
         now := S (now w); history := log w t [ev_call c] |}
| step_flip t :
    threads w !! t = Some (pc_entry call_notify) ->
    mMutex w = None ->
    step_case w (advance t)
      {| object := notify_flip (object w); mMutex := Some t;
         threads := <[t := pc_notify_work]> (threads w);
         now := S (now w); history := log w t [ev_flip] |}
| step_body t p c elapsed r this' effects :
    threads w !! t = Some p ->
    at_lock (now w) p = Some (c, elapsed) ->
    mMutex w = None ->
    c <> call_notify ->
    (p = pc_entry c -> waits c = true -> mNotified (object w) = true) ->
    locked_body c elapsed (object w) = Some (r, this', effects) ->
    step_case w (advance t)
      {| object := this'; mMutex := Some t;
         threads := <[t := pc_unlock c r]> (threads w);
         now := S (now w); history := log w t (ev_effect <$> effects) |}
| step_sleep t c :
    threads w !! t = Some (pc_entry c) ->
    mMutex w = None ->
    waits c = true ->
    mNotified (object w) = false ->
    step_case w (advance t)
      {| object := object w; mMutex := None;
         threads := <[t := pc_sleep c (now w)]> (threads w);
         now := S (now w); history := history w |}
| step_work t :
    threads w !! t = Some pc_notify_work ->
    step_case w (advance t)
      {| object := object w; mMutex := mMutex w;
         threads := <[t := pc_unlock call_notify ret_void]> (threads w);
         now := S (now w);
         history := log w t (ev_effect <$> notify_work (object w)) |}
| step_unlock t c r :
    threads w !! t = Some (pc_unlock c r) ->
    step_case w (advance t)
      {| object := object w; mMutex := None;
         threads := delete t (threads w);
         now := S (now w); history := log w t [ev_return c r] |}.

(** The returns of the waiting calls that only a set flag lets through:
    every [wait], and a [wait_for] whose status is not the one that line
    382 gives to a wait that ended with the flag unset. *)
Definition saw_flag (c : call) (r : result) : bool :=
  match c, r with
  | call_wait, _ => true
  | call_wait_for _, ret_cv_status status =>
      bool_decide (status ≠ to_cv_status false)
  | _, _ => false
  end.

(** What holds in every world a run can reach. *)
Record consistent (w : world) : Prop := {
  cons_time : forall t tid e, (t, tid, e) ∈ history w -> t < now w;
  cons_lock : forall tid p,
    threads w !! tid = Some p -> holds_lock p = true -> mMutex w = Some tid;
  cons_flag :
    mNotified (object w) = true <-> exists t tid, (t, tid, ev_flip) ∈ history w;
  cons_registered_pc : forall tid f,
    threads w !! tid = Some (pc_unlock (call_on_finish f) (ret_bool true)) ->
    f <> None /\ mPostWork (object w) = f;
  cons_registered : forall t tid f,
    (t, tid, ev_return (call_on_finish f) (ret_bool true)) ∈ history w ->
    f <> None /\ mPostWork (object w) = f;
  cons_saw_pc : forall tid c r,
    threads w !! tid = Some (pc_unlock c r) -> saw_flag c r = true ->
    mNotified (object w) = true;
  cons_saw : forall t tid c r,
    (t, tid, ev_return c r) ∈ history w -> saw_flag c r = true ->
    mNotified (object w) = true;
  cons_work_pc : forall tid,
    threads w !! tid = Some pc_notify_work -> mNotified (object w) = true;
  cons_invoked : forall t tid g,
    (t, tid, ev_effect (invoked g)) ∈ history w ->
    mNotified (object w) = true /\ mPostWork (object w) = Some g
}.

(** No deferred work has run, and no waiter was let through by the flag. *)
Definition nothing_yet (h : list (nat * thread_id * event)) : Prop :=
  (forall t tid g, (t, tid, ev_effect (invoked g)) ∉ h)
  /\ (forall t tid c r, (t, tid, ev_return c r) ∈ h -> saw_flag c r = false).

(** The deferred work [f] has run once, at instant [t'], in thread [tn],
    and every waiter the flag let through returned after that. *)
Definition work_done (tn : thread_id) (f : target) (t' : nat)
  (h : list (nat * thread_id * event)) : Prop :=
  (forall t tid g,
     (t, tid, ev_effect (invoked g)) ∈ h <-> t = t' /\ tid = tn /\ g = f)
  /\ (forall t tid c r,
        (t, tid, ev_return c r) ∈ h -> saw_flag c r = true -> t' < t).

(** After the one call of [notify], made by thread [tn] with [f]
    registered: [tn] is the only thread that can be inside [notify]. *)
Definition after_notify (tn : thread_id) (f : target) (w : world) : Prop :=
  (forall tid p, threads w !! tid = Some p -> in_notify p = true -> tid = tn)
  /\ mPostWork (object w) = Some f
  /\ match notify_stage (threads w !! tn) with
     | stage_entry => mNotified (object w) = false
     | stage_work => nothing_yet (history w)
     | stage_past => exists t', work_done tn f t' (history w)
     end.

(** Calls on one [PreparedModelCallback] object, run one after the other
    like [run_calls]. *)
Definition pm_locked_body (c : pm_call) (elapsed : nat)
  (this : PreparedModelCallback)
  : option (pm_result * PreparedModelCallback * list effect) :=
  match c with
  | pm_call_base c =>
      '(r, base, effects) ← locked_body c elapsed (pm_base this);
      Some (pm_ret r,
            {| pm_base := base; pm_mErrorStatus := pm_mErrorStatus this;
               pm_mPreparedModel := pm_mPreparedModel this |}, effects)
  | pm_call_notify status preparedModel =>
      let '(this', effects) := pm_notify status preparedModel this in
      Some (pm_ret ret_void, this', effects)
  | pm_call_notify_1_2 status preparedModel =>
      let '(this', effects) := pm_notify_1_2 status preparedModel this in
      Some (pm_ret ret_void, this', effects)
  | pm_call_getStatus =>
      '(s, this', effects) ← pm_getStatus this;
      Some (pm_ret_status s, this', effects)
  | pm_call_getPreparedModel =>
      '(m, this', effects) ← pm_getPreparedModel this;
      Some (pm_ret_model m, this', effects)
  end.

Fixpoint pm_run_calls (cs : list (pm_call * nat)) (this : PreparedModelCallback)
  : option (list pm_result * PreparedModelCallback * list effect) :=
  match cs with
  | [] => Some ([], this, [])
  | (c, elapsed) :: cs' =>
      '(r, this', effects) ← pm_locked_body c elapsed this;
      '(rs, this'', effects') ← pm_run_calls cs' this';
      Some (r :: rs, this'', effects ++ effects')
  end.

End WaitFor.

Arguments cons_time {to_cv_status}.
Arguments cons_lock {to_cv_status}.
Arguments cons_flag {to_cv_status}.
Arguments cons_registered_pc {to_cv_status}.
Arguments cons_registered {to_cv_status}.
Arguments cons_saw_pc {to_cv_status}.
Arguments cons_saw {to_cv_status}.
Arguments cons_work_pc {to_cv_status}.
Arguments cons_invoked {to_cv_status}.

End Callbacks.

(* ===================================================================== *)
(** ** Properties of [stridedSliceGeneric] *)
(* ===================================================================== *)

Section StridedSliceFacts.
Import StridedSlice.
Local Open Scope Z_scope.

Context (ClampedIndex : Z -> Z -> bool -> Z) (ReverseMaskBits : Z -> nat -> Z).
Context (Dims : Type) (convertShapeToDims : Shape -> Dims).
Context (inputShape : Shape) (beginData : nat -> Z) (beginMask : Z)
        (endData : nat -> Z) (endMask : Z) (stridesData : nat -> Z).

Local Abbreviation loop :=
  (bounds_loop ClampedIndex inputShape beginData beginMask endData endMask
     stridesData).
Local Abbreviation generic :=
  (stridedSliceGeneric ClampedIndex ReverseMaskBits Dims convertShapeToDims
     inputShape beginData beginMask endData endMask stridesData).

(** [mask & (1 << idx)] is non-zero exactly when bit [idx] of the mask is
    set, as long as the shift stays inside an [int32_t]. *)
Lemma mask_bit_test (mask : Z) (idx : nat) :
  (idx < 31)%nat ->
  negb (Z.land mask (to_int32 (Z.shiftl 1 (Z.of_nat idx))) =? 0)
  = Z.testbit mask (Z.of_nat idx).
Proof.
  intros Hidx.
  assert (Hpow : to_int32 (Z.shiftl 1 (Z.of_nat idx)) = 2 ^ Z.of_nat idx).
  { rewrite Z.shiftl_1_l. unfold to_int32.
    assert (0 < 2 ^ Z.of_nat idx) by (apply Z.pow_pos_nonneg; lia).
    assert (2 ^ Z.of_nat idx <= 2 ^ 30) by (apply Z.pow_le_mono_r; lia).
    rewrite Z.mod_small; lia. }
  rewrite Hpow.
  destruct (Z.testbit mask (Z.of_nat idx)) eqn:Hbit.
  - apply negb_true_iff, Z.eqb_neq. intros Hz.
    assert (Z.testbit (Z.land mask (2 ^ Z.of_nat idx)) (Z.of_nat idx) = true).
    { rewrite Z.land_spec, Hbit, Z.pow2_bits_true; [done | lia]. }
    rewrite Hz, Z.bits_0 in H. done.
  - apply negb_false_iff, Z.eqb_eq, Z.bits_inj'. intros k Hk.
    rewrite Z.land_spec, Z.bits_0.
    destruct (decide (k = Z.of_nat idx)) as [-> | Hne].
    + by rewrite Hbit.
    + rewrite Z.pow2_bits_false; [apply andb_false_r | lia].
Qed.

(** With non-zero strides the first loop appends, for [idx] from [n - 1]
    down to [0], the bounds of dimension [idx]. *)
Lemma bounds_loop_described (n : nat) (s e t : list Z) :
  (n <= 31)%nat ->
  (forall idx, (idx < n)%nat -> stridesData idx <> 0) ->
  loop n (s, e, t)
  = Some (s ++ (described_begin ClampedIndex inputShape beginData beginMask
                  stridesData <$> reverse (seq 0 n)),
          e ++ (described_end ClampedIndex inputShape endData endMask
                  stridesData <$> reverse (seq 0 n)),
          t ++ (stridesData <$> reverse (seq 0 n))).
Proof.
  revert s e t. induction n as [| n IH]; intros s e t Hn Hnz.
  - simpl. by rewrite !app_nil_r.
  - cbn [bounds_loop]. unfold NN_OPS_CHECK.
    assert (Hs : stridesData n <> 0) by (apply Hnz; lia).
    apply Z.eqb_neq in Hs. rewrite Hs. cbn [negb].
    rewrite !mask_bit_test by lia.
    rewrite IH by (try lia; intros; apply Hnz; lia).
    rewrite seq_S, reverse_snoc, !fmap_cons, <- !app_assoc. simpl.
    reflexivity.
Qed.

Lemma pad_loop_replicate (n : nat) (s e t : list Z) :
  pad_loop n (s, e, t)
  = (s ++ replicate n 0, e ++ replicate n 1, t ++ replicate n 1).
Proof.
  revert s e t. induction n as [| n IH]; intros s e t; simpl.
  - by rewrite !app_nil_r.
  - by rewrite IH, <- !app_assoc.
Qed.

(** C9 -- An input whose operand type is neither TENSOR_FLOAT32 nor
    TENSOR_QUANT8_ASYMM makes [stridedSliceGeneric] return false with no
    kernel call at all; an input of one of the two types whose strides are
    all non-zero makes it return true. *)
Theorem stridedSliceGeneric_type_gate
  (inputData outputData : list Z) (outputShape : Shape) :
  (type inputShape <> TENSOR_FLOAT32 ->
   type inputShape <> TENSOR_QUANT8_ASYMM ->
   generic inputData outputData outputShape = (false, []))
  /\ (type inputShape = TENSOR_FLOAT32 \/ type inputShape = TENSOR_QUANT8_ASYMM ->
      (forall idx, (idx < getNumberOfDimensions inputShape)%nat ->
                   stridesData idx <> 0) ->
      (generic inputData outputData outputShape).1 = true).
Proof.
  split.
  - intros Hf Hq. unfold stridedSliceGeneric.
    destruct (bounds_loop _ _ _ _ _ _ _ _ _) as [[[s e] t] |]; [| done].
    rewrite pad_loop_replicate.
    destruct (decide _); [done |]. destruct (decide _); done.
  - intros Hty Hnz. unfold stridedSliceGeneric.
    destruct (bounds_loop _ _ _ _ _ _ _ _ _) as [[[s e] t] |] eqn:Hloop.
    + rewrite pad_loop_replicate.
      destruct (decide _); [done |]. destruct (decide _); [done |].
      by destruct Hty.
    + exfalso. revert Hloop Hnz. generalize (getNumberOfDimensions inputShape).
      generalize (@nil Z, @nil Z, @nil Z).
      intros vs n. revert vs. induction n as [| n IH]; intros [[s e] t]; [done |].
      cbn [bounds_loop]. unfold NN_OPS_CHECK. intros Hloop Hnz.
      assert (Hs : stridesData n <> 0) by (apply Hnz; lia).
      apply Z.eqb_neq in Hs. rewrite Hs in Hloop. cbn [negb] in Hloop.
      eapply IH; [exact Hloop |]. intros; apply Hnz; lia.
Qed.

(** C10 -- For an input of rank 1 to 4 with non-zero strides, every kernel
    call [stridedSliceGeneric] makes carries, for the dimensions taken from
    the last down to the first, the begin and end bounds the description
    gives (mask bit set: 0 or dim-1, resp. dim or -1, by the sign of the
    stride; mask bit clear: the clamped index), then the padding 0 / 1 / 1
    up to four positions, and both masks reversed over the rank; and the
    call is made when the operand type is one of the two supported ones. *)
Theorem stridedSliceGeneric_bounds
  (inputData outputData : list Z) (outputShape : Shape) :
  let rank := getNumberOfDimensions inputShape in
  (1 <= rank <= 4)%nat ->
  (forall idx, (idx < rank)%nat -> stridesData idx <> 0) ->
  (forall c, c ∈ (generic inputData outputData outputShape).2 ->
     starts c = described inputShape
                  (described_begin ClampedIndex inputShape beginData beginMask
                     stridesData) 0
     /\ stops c = described inputShape
                    (described_end ClampedIndex inputShape endData endMask
                       stridesData) 1
     /\ strides c = described inputShape stridesData 1
     /\ length (starts c) = 4%nat /\ length (stops c) = 4%nat
     /\ length (strides c) = 4%nat
     /\ begin_mask c = ReverseMaskBits beginMask rank
     /\ end_mask c = ReverseMaskBits endMask rank)
  /\ (type inputShape = TENSOR_FLOAT32 \/ type inputShape = TENSOR_QUANT8_ASYMM ->
      exists c, (generic inputData outputData outputShape).2 = [c]).
Proof.
  intros rank Hrank Hnz. unfold stridedSliceGeneric. fold rank.
  rewrite bounds_loop_described by (try lia; done).
  rewrite pad_loop_replicate. cbn [app].
  assert (Hlen : forall (f : nat -> Z) (x : Z),
             length ((f <$> reverse (seq 0 rank)) ++ replicate (kMaxDim - rank) x)
             = 4%nat).
  { intros f x. rewrite length_app, length_fmap, length_reverse, length_seq,
      length_replicate. unfold kMaxDim. lia. }
  split.
  - intros c Hc.
    assert (Hfields :
      forall e, c = StridedSlice_call e inputData (convertShapeToDims inputShape)
                      (ReverseMaskBits beginMask rank)
                      (ReverseMaskBits endMask rank)
                      ((described_begin ClampedIndex inputShape beginData
                          beginMask stridesData <$> reverse (seq 0 rank))
                         ++ replicate (kMaxDim - rank) 0)
                      ((described_end ClampedIndex inputShape endData endMask
                          stridesData <$> reverse (seq 0 rank))
                         ++ replicate (kMaxDim - rank) 1)
                      ((stridesData <$> reverse (seq 0 rank))
                         ++ replicate (kMaxDim - rank) 1)
                      outputData (convertShapeToDims outputShape) ->
        starts c = described inputShape
                     (described_begin ClampedIndex inputShape beginData
                        beginMask stridesData) 0
        /\ stops c = described inputShape
                       (described_end ClampedIndex inputShape endData endMask
                          stridesData) 1
        /\ strides c = described inputShape stridesData 1
        /\ length (starts c) = 4%nat /\ length (stops c) = 4%nat
        /\ length (strides c) = 4%nat
        /\ begin_mask c = ReverseMaskBits beginMask rank
        /\ end_mask c = ReverseMaskBits endMask rank).
    { intros e ->. cbn. rewrite !Hlen. unfold described. fold rank.
      repeat split; reflexivity. }
    destruct (decide _).
    + apply list_elem_of_singleton in Hc. by apply (Hfields elem_float).
    + destruct (decide _).
      * apply list_elem_of_singleton in Hc. by apply (Hfields elem_uint8).
      * by apply elem_of_nil in Hc.
  - intros Hty. destruct (decide _); [by eexists |].
    destruct (decide _); [by eexists |]. by destruct Hty.
Qed.

End StridedSliceFacts.

(** Concrete runs: a 2x3 float tensor sliced with strides (1, -1), begin
    mask 0b10 and end mask 0b01; and an INT32 tensor, which is refused. *)
Lemma stridedSliceGeneric_type_gate_witness :
  StridedSlice.stridedSliceGeneric StridedSlice.tflite_ClampedIndex
    StridedSlice.tflite_ReverseMaskBits (list Z) StridedSlice.dimensions
    (StridedSlice.mkShape StridedSlice.TENSOR_INT32 [2; 3]%Z)
    (fun idx => nth idx [0; 2]%Z 0%Z) 2
    (fun idx => nth idx [2; 0]%Z 0%Z) 1
    (fun idx => nth idx [1; -1]%Z 0%Z)
    [] [] (StridedSlice.mkShape StridedSlice.TENSOR_INT32 [2; 3]%Z)
  = (false, [])
  /\ (StridedSlice.stridedSliceGeneric StridedSlice.tflite_ClampedIndex
        StridedSlice.tflite_ReverseMaskBits (list Z) StridedSlice.dimensions
        (StridedSlice.mkShape StridedSlice.TENSOR_FLOAT32 [2; 3]%Z)
        (fun idx => nth idx [0; 2]%Z 0%Z) 2
        (fun idx => nth idx [2; 0]%Z 0%Z) 1
        (fun idx => nth idx [1; -1]%Z 0%Z)
        [] [] (StridedSlice.mkShape StridedSlice.TENSOR_FLOAT32 [2; 3]%Z)).1
     = true.
Proof.
  split.
  - apply stridedSliceGeneric_type_gate; discriminate.
  - apply stridedSliceGeneric_type_gate; [by left |].
    intros [| [| idx]]; cbn; intros; (lia || discriminate).
Defined.

Example stridedSliceGeneric_run :
  StridedSlice.stridedSliceGeneric StridedSlice.tflite_ClampedIndex
    StridedSlice.tflite_ReverseMaskBits (list Z) StridedSlice.dimensions
    (StridedSlice.mkShape StridedSlice.TENSOR_FLOAT32 [2; 3]%Z)
    (fun idx => nth idx [0; 2]%Z 0%Z) 2
    (fun idx => nth idx [2; 0]%Z 0%Z) 1
    (fun idx => nth idx [1; -1]%Z 0%Z)
    [] [] (StridedSlice.mkShape StridedSlice.TENSOR_FLOAT32 [2; 3]%Z)
  = (true,
     [StridedSlice.StridedSlice_call StridedSlice.elem_float [] [2; 3]%Z
        1 2 [2; 0; 0; 0]%Z [0; 2; 1; 1]%Z [-1; 1; 1; 1]%Z [] [2; 3]%Z]).
Proof. reflexivity. Qed.

(** A zero stride ends the function before any dispatch. *)
Example stridedSliceGeneric_zero_stride :
  StridedSlice.stridedSliceGeneric StridedSlice.tflite_ClampedIndex
    StridedSlice.tflite_ReverseMaskBits (list Z) StridedSlice.dimensions
    (StridedSlice.mkShape StridedSlice.TENSOR_FLOAT32 [2; 3]%Z)
    (fun idx => nth idx [0; 2]%Z 0%Z) 2
    (fun idx => nth idx [2; 0]%Z 0%Z) 1
    (fun idx => nth idx [0; -1]%Z 0%Z)
    [] [] (StridedSlice.mkShape StridedSlice.TENSOR_FLOAT32 [2; 3]%Z)
  = (false, []).
Proof. reflexivity. Qed.

Lemma stridedSliceGeneric_bounds_witness :
  exists c,
    (StridedSlice.stridedSliceGeneric StridedSlice.tflite_ClampedIndex
       StridedSlice.tflite_ReverseMaskBits (list Z) StridedSlice.dimensions
       (StridedSlice.mkShape StridedSlice.TENSOR_FLOAT32 [2; 3]%Z)
       (fun idx => nth idx [0; 2]%Z 0%Z) 2
       (fun idx => nth idx [2; 0]%Z 0%Z) 1
       (fun idx => nth idx [1; -1]%Z 0%Z)
       [] [] (StridedSlice.mkShape StridedSlice.TENSOR_FLOAT32 [2; 3]%Z)).2 = [c]
    /\ StridedSlice.starts c = [2; 0; 0; 0]%Z
    /\ StridedSlice.stops c = [0; 2; 1; 1]%Z
    /\ StridedSlice.strides c = [-1; 1; 1; 1]%Z
    /\ StridedSlice.begin_mask c = 1%Z /\ StridedSlice.end_mask c = 2%Z.
Proof.
  destruct (stridedSliceGeneric_bounds StridedSlice.tflite_ClampedIndex
              StridedSlice.tflite_ReverseMaskBits (list Z)
              StridedSlice.dimensions
              (StridedSlice.mkShape StridedSlice.TENSOR_FLOAT32 [2; 3]%Z)
              (fun idx => nth idx [0; 2]%Z 0%Z) 2%Z
              (fun idx => nth idx [2; 0]%Z 0%Z) 1%Z
              (fun idx => nth idx [1; -1]%Z 0%Z)
              [] [] (StridedSlice.mkShape StridedSlice.TENSOR_FLOAT32 [2; 3]%Z))
    as [Hall Hcall].
  - cbn. lia.
  - intros [| [| idx]]; cbn; intros; (lia || discriminate).
  - destruct Hcall as [c Hc]; [by left |]. exists c. split; [exact Hc |].
    destruct (Hall c) as (Hs & He & Ht & _ & _ & _ & Hb & Hm).
    + rewrite Hc. apply list_elem_of_singleton. reflexivity.
    + rewrite Hs, He, Ht, Hb, Hm. repeat split; reflexivity.
Defined.

(* ===================================================================== *)
(** ** Properties of the callback objects *)
(* ===================================================================== *)

Section CallbackFacts.
Import Callbacks.

(** Whatever status line 382 gives to the two outcomes of the wait. *)
Context (to_cv_status : bool -> cv_status).

Local Abbreviation wait_for := (Callbacks.wait_for to_cv_status).
Local Abbreviation locked_body := (Callbacks.locked_body to_cv_status).
Local Abbreviation run_calls := (Callbacks.run_calls to_cv_status).
Local Abbreviation reached_by_calls :=
  (Callbacks.reached_by_calls to_cv_status).
Local Abbreviation step := (Callbacks.step to_cv_status).
Local Abbreviation run := (Callbacks.run to_cv_status).
Local Abbreviation step_case := (Callbacks.step_case to_cv_status).
Local Abbreviation saw_flag := (Callbacks.saw_flag to_cv_status).
Local Abbreviation consistent := (Callbacks.consistent to_cv_status).
Local Abbreviation nothing_yet := (Callbacks.nothing_yet to_cv_status).
Local Abbreviation work_done := (Callbacks.work_done to_cv_status).
Local Abbreviation after_notify := (Callbacks.after_notify to_cv_status).
Local Abbreviation pm_locked_body := (Callbacks.pm_locked_body to_cv_status).
Local Abbreviation pm_run_calls := (Callbacks.pm_run_calls to_cv_status).

(** C6 -- The overload [notify (status, outputShapes)] leaves the object in
    the same state, with the same effects, as [notify_1_2] on the same
    arguments. *)
Theorem notify_overload_same_as_notify_1_2
  (s : ErrorStatus) (v : list OutputShape) (this : ExecutionCallback) :
  notify_overload s v this = notify_1_2 s v this
  /\ getStatus (notify_overload s v this).1 = getStatus (notify_1_2 s v this).1
  /\ getOutputShapes (notify_overload s v this).1
     = getOutputShapes (notify_1_2 s v this).1.
Proof. unfold notify_overload. repeat split. Qed.

(** C4 -- After [setOnFinish (t)], completing the object with
    [(status, outputShapes)], through [notify_1_2] or through the overload,
    stores [t status]; [getStatus] returns [t status] and [getOutputShapes]
    returns [outputShapes] as passed. *)
Theorem setOnFinish_transforms_status_only
  (t : ErrorStatus -> ErrorStatus) (status : ErrorStatus)
  (outputShapes : list OutputShape) (this : ExecutionCallback) :
  forall completed,
    completed = (notify_1_2 status outputShapes (setOnFinish (Some t) this)).1
    \/ completed
       = (notify_overload status outputShapes (setOnFinish (Some t) this)).1 ->
    ex_mErrorStatus completed = t status
    /\ ex_mOutputShapes completed = outputShapes
    /\ (exists this' effects,
          getStatus completed = Some (t status, this', effects))
    /\ (exists this' effects,
          getOutputShapes completed = Some (outputShapes, this', effects)).
Proof.
  intros completed [-> | ->]; unfold notify_overload, notify_1_2, setOnFinish;
    cbn; (split; [reflexivity |]); (split; [reflexivity |]);
    unfold getStatus, getOutputShapes; cbn;
    destruct (join_thread_locked _); split; eauto.
Qed.

Lemma setOnFinish_transforms_status_only_witness :
  let transform := fun s => match s with NONE => GENERAL_FAILURE | _ => s end in
  let shapes := [mkOutputShape [2; 3]%N true] in
  let this := mkExecutionCallback CallbackBase_new GENERAL_FAILURE [] None in
  let completed := (notify_1_2 NONE shapes (setOnFinish (Some transform) this)).1 in
  ex_mErrorStatus completed = GENERAL_FAILURE
  /\ ex_mOutputShapes completed = shapes
  /\ (exists this' effects,
        getStatus completed = Some (GENERAL_FAILURE, this', effects))
  /\ (exists this' effects,
        getOutputShapes completed = Some (shapes, this', effects)).
Proof.
  intros transform shapes this completed.
  apply (setOnFinish_transforms_status_only transform NONE shapes this completed).
  left. reflexivity.
Defined.


(** *** One call at a time *)

(** The predicate form of the timed wait returns the value of the
    predicate, and [false] only once the duration has gone by. *)
Lemma condition_wait_for_inv rel_time elapsed pred notified :
  condition_wait_for rel_time elapsed pred = Some notified ->
  notified = pred /\ (pred = false -> rel_time <= elapsed).
Proof.
  unfold condition_wait_for. destruct pred; [by intros [= <-] |].
  case_bool_decide; [| done]. by intros [= <-].
Qed.

(** The three lines of [wait_for] after the lock is taken. *)
Lemma wait_for_inv timeout_duration elapsed this status this' effects :
  wait_for timeout_duration elapsed this = Some (status, this', effects) ->
  status = to_cv_status (mNotified this)
  /\ (mNotified this = false -> timeout_duration <= elapsed)
  /\ (this', effects)
     = (if decide (status ≠ timeout) then join_thread_locked this
        else (this, [])).
Proof.
  unfold Callbacks.wait_for.
  destruct (condition_wait_for _ _ _) as [notified |] eqn:Hw; cbn; [| done].
  apply condition_wait_for_inv in Hw as [-> Hd].
  destruct (decide (to_cv_status (mNotified this) ≠ timeout)) as [Hs | Hs].
  - destruct (join_thread_locked this) as [this1 eff1]. intros [= <- <- <-].
    by rewrite decide_True.
  - intros [= <- <- <-]. by rewrite decide_False.
Qed.

Lemma wait_for_notified timeout_duration elapsed this :
  mNotified this = true ->
  wait_for timeout_duration elapsed this
  = Some (to_cv_status true,
          (if decide (to_cv_status true ≠ timeout)
           then join_thread_locked this else (this, [])).1,
          (if decide (to_cv_status true ≠ timeout)
           then join_thread_locked this else (this, [])).2).
Proof.
  intros Hn. unfold Callbacks.wait_for, condition_wait_for. rewrite Hn. cbn.
  destruct (decide _); [by destruct (join_thread_locked this) | done].
Qed.

Lemma wait_for_pending timeout_duration elapsed this :
  mNotified this = false ->
  wait_for timeout_duration elapsed this
  = if bool_decide (timeout_duration <= elapsed) then
      Some (to_cv_status false,
            (if decide (to_cv_status false ≠ timeout)
             then join_thread_locked this else (this, [])).1,
            (if decide (to_cv_status false ≠ timeout)
             then join_thread_locked this else (this, [])).2)
    else None.
Proof.
  intros Hn. unfold Callbacks.wait_for, condition_wait_for. rewrite Hn.
  case_bool_decide; cbn; [| done].
  destruct (decide _); [by destruct (join_thread_locked this) | done].
Qed.

(** [join_thread_locked] touches the bound thread only. *)
Lemma join_thread_locked_fields this :
  mNotified (join_thread_locked this).1 = mNotified this
  /\ mPostWork (join_thread_locked this).1 = mPostWork this.
Proof. unfold join_thread_locked. by destruct (mThread this). Qed.

(** What each call has done when its body is over. *)
Lemma locked_body_inv c elapsed this r this' effects :
  locked_body c elapsed this = Some (r, this', effects) ->
  match c with
  | call_wait =>
      mNotified this = true /\ r = ret_void
      /\ (this', effects) = join_thread_locked this
  | call_wait_for d =>
      exists status,
        r = ret_cv_status status
        /\ status = to_cv_status (mNotified this)
        /\ (mNotified this = false -> d <= elapsed)
        /\ (this', effects)
           = (if decide (status ≠ timeout) then join_thread_locked this
              else (this, []))
  | call_on_finish post_work =>
      r = ret_bool (on_finish post_work this).1
      /\ this' = (on_finish post_work this).2 /\ effects = []
  | call_bind_thread asyncThread =>
      r = ret_bool (bind_thread asyncThread this).1.1
      /\ this' = (bind_thread asyncThread this).1.2 /\ effects = []
  | call_join_thread =>
      r = ret_void /\ (this', effects) = join_thread_locked this
  | call_notify => r = ret_void /\ (this', effects) = notify this
  end.
Proof.
  destruct c as [| d | f | a | |]; cbn.
  - unfold wait, condition_wait. destruct (mNotified this); cbn; [| done].
    destruct (join_thread_locked this). by intros [= <- <- <-].
  - destruct (Callbacks.wait_for _ _ _ _) as [[[status this1] eff1] |] eqn:Hw;
      cbn; [| done].
    intros [= <- <- <-]. apply wait_for_inv in Hw as (? & ? & ?).
    by exists status.
  - destruct (on_finish f this). by intros [= <- <- <-].
  - destruct (bind_thread a this) as [[b this1] a']. by intros [= <- <- <-].
  - unfold join_thread. destruct (join_thread_locked this).
    by intros [= <- <- <-].
  - by intros [= <- <- <-].
Qed.

(** A call other than [notify] never changes the flag, and no call ever
    resets it. *)
Lemma locked_body_flag c elapsed this r this' effects :
  locked_body c elapsed this = Some (r, this', effects) ->
  mNotified this' = (if decide (c = call_notify) then true else mNotified this).
Proof.
  intros H. apply locked_body_inv in H.
  pose proof (join_thread_locked_fields this) as [Hj _].
  destruct c as [| d | f | a | |]; cbn.
  - destruct H as (_ & _ & H). by rewrite <- H in Hj.
  - destruct H as (status & _ & _ & _ & H).
    destruct (decide _); [by rewrite <- H in Hj | by simplify_eq].
  - destruct H as (_ & -> & _). unfold on_finish.
    by destruct (mPostWork this), f.
  - destruct H as (_ & -> & _). unfold bind_thread.
    by destruct (mThread this), a.
  - destruct H as (_ & H). by rewrite <- H in Hj.
  - destruct H as (_ & H). unfold notify in H. by simplify_eq.
Qed.

(** The deferred work: once registered it stays, and it gets registered
    only by an [on_finish] that returns true. *)
Lemma locked_body_post_work c elapsed this r this' effects :
  locked_body c elapsed this = Some (r, this', effects) ->
  (forall g, mPostWork this = Some g ->
     mPostWork this' = Some g
     /\ (forall f, c = call_on_finish f -> r = ret_bool false))
  /\ (mPostWork this = None ->
      (forall f, c = call_on_finish f -> r = ret_bool true ->
                 f <> None /\ mPostWork this' = f)
      /\ (mPostWork this' <> None ->
          exists f, c = call_on_finish f /\ r = ret_bool true)).
Proof.
  intros H. apply locked_body_inv in H.
  pose proof (join_thread_locked_fields this) as [_ Hj].
  assert (Hkeep : mPostWork this' = mPostWork this ->
            (forall f, c <> call_on_finish f) ->
            (forall g, mPostWork this = Some g ->
               mPostWork this' = Some g
               /\ (forall f, c = call_on_finish f -> r = ret_bool false))
            /\ (mPostWork this = None ->
                (forall f, c = call_on_finish f -> r = ret_bool true ->
                           f <> None /\ mPostWork this' = f)
                /\ (mPostWork this' <> None ->
                    exists f, c = call_on_finish f /\ r = ret_bool true))).
  { intros Hsame Hc. split.
    - intros g Hg. split; [congruence |]. intros f Hf. by destruct (Hc f).
    - intros Hn. split; [intros f Hf; by destruct (Hc f) |].
      intros Hne. congruence. }
  destruct c as [| d | f | a | |].
  - destruct H as (_ & _ & H). apply Hkeep; [by rewrite <- H in Hj | done].
  - destruct H as (status & _ & _ & _ & H). apply Hkeep; [| done].
    destruct (decide _); [by rewrite <- H in Hj | by simplify_eq].
  - destruct H as (-> & -> & _). unfold on_finish.
    destruct (mPostWork this) as [g0 |] eqn:Hw, f as [f0 |]; cbn;
      (split; [intros g Hg | intros Hn; split; [intros f' Hc Hr | intros Hne]]);
      simplify_eq/=; eauto.
  - destruct H as (_ & -> & _). apply Hkeep; [| done]. unfold bind_thread.
    by destruct (mThread this), a.
  - destruct H as (_ & H). apply Hkeep; [by rewrite <- H in Hj | done].
  - destruct H as (_ & H). unfold notify in H. apply Hkeep; [by simplify_eq | done].
Qed.

Lemma run_calls_post_work cs : forall this0 rs this effects,
  run_calls cs this0 = Some (rs, this, effects) ->
  (forall g, mPostWork this0 = Some g -> mPostWork this = Some g)
  /\ (mPostWork this0 = None ->
      (mPostWork this <> None <-> registered_before cs rs)).
Proof.
  induction cs as [| [c e] cs IH]; intros this0 rs this effects H.
  - cbn in H. simplify_eq. split; [done |]. intros Hn. rewrite Hn. split; [done |].
    intros (i & f & el & Hi & _). by rewrite lookup_nil in Hi.
  - cbn in H.
    destruct (locked_body c e this0) as [[[r this1] eff1] |] eqn:Hb; [| done].
    cbn in H.
    destruct (run_calls cs this1) as [[[rs' this2] eff2] |] eqn:Hr; [| done].
    cbn in H. simplify_eq.
    destruct (IH _ _ _ _ Hr) as [IHs IHn].
    destruct (locked_body_post_work _ _ _ _ _ _ Hb) as [Hs Hn].
    split.
    + intros g Hg. destruct (Hs g Hg) as [Hg1 _]. by apply IHs.
    + intros H0. destruct (Hn H0) as [Hreg Hfresh].
      destruct (mPostWork this1) as [g |] eqn:H1.
      * destruct Hfresh as (f & -> & ->); [done |].
        rewrite (IHs g eq_refl). split; [intros _ | done].
        exists 0, f, e. done.
      * rewrite (IHn eq_refl). split.
        -- intros (i & f & el & Hi & Hri). exists (S i), f, el. done.
        -- intros (i & f & el & Hi & Hri). destruct i as [| i].
           ++ cbn in Hi, Hri. simplify_eq.
              destruct (Hreg f eq_refl eq_refl) as [Hf Hw]. congruence.
           ++ exists i, f, el. done.
Qed.

(** C7 -- [on_finish (work)] returns false and leaves the object as it is
    when [work] is empty or a deferred work item is stored already;
    otherwise it stores [work] and returns true.  Over the life of an
    object, "stored already" is the same as "an earlier [on_finish]
    returned true". *)
Theorem on_finish_registers_once (post_work : std_function) (this : CallbackBase) :
  (post_work = None \/ mPostWork this <> None ->
   on_finish post_work this = (false, this))
  /\ (post_work <> None -> mPostWork this = None ->
      on_finish post_work this
      = (true, {| mNotified := mNotified this; mPostWork := post_work;
                  mThread := mThread this |}))
  /\ (forall cs rs effects,
        run_calls cs CallbackBase_new = Some (rs, this, effects) ->
        (post_work = None \/ registered_before cs rs ->
         on_finish post_work this = (false, this))
        /\ (post_work <> None -> ~ registered_before cs rs ->
            (on_finish post_work this).1 = true
            /\ mPostWork (on_finish post_work this).2 = post_work)).
Proof.
  assert (Hfail : post_work = None \/ mPostWork this <> None ->
                  on_finish post_work this = (false, this)).
  { intros [-> | Hw]; unfold on_finish; destruct (mPostWork this); done. }
  assert (Hok : post_work <> None -> mPostWork this = None ->
                on_finish post_work this
                = (true, {| mNotified := mNotified this; mPostWork := post_work;
                            mThread := mThread this |})).
  { intros Hp Hw. unfold on_finish. rewrite Hw. destruct post_work; done. }
  split; [exact Hfail |]. split; [exact Hok |].
  intros cs rs effects Hrun.
  destruct (run_calls_post_work _ _ _ _ _ Hrun) as [_ Hreg].
  specialize (Hreg eq_refl). split.
  - intros [Hp | Hb]; apply Hfail; [by left | right; by apply Hreg].
  - intros Hp Hnb. rewrite Hok; [done | done |].
    destruct (mPostWork this) eqn:Hw; [| done].
    exfalso. apply Hnb, Hreg. done.
Qed.

(** The bound thread: a join reclaims the thread that is bound and not yet
    reclaimed, and leaves it bound. *)
Lemma join_thread_locked_thread this :
  bound_to (mThread (join_thread_locked this).1) = bound_to (mThread this)
  /\ (forall t, joined t ∈ (join_thread_locked this).2 ->
                bound_to (mThread this) = Some t).
Proof.
  unfold join_thread_locked.
  destruct (mThread this) as [| t0 | t0] eqn:Hth; cbn; rewrite ?Hth.
  - split; [done |]. intros t Hin. by apply elem_of_nil in Hin.
  - split; [done |]. intros t Hin. apply list_elem_of_singleton in Hin.
    by simplify_eq.
  - split; [done |]. intros t Hin. by apply elem_of_nil in Hin.
Qed.

(** A call joins no other thread than the bound one; a bound thread stays
    bound, and a [bind_thread] on an object with a bound thread returns
    false; an object without one gets one only by a [bind_thread] that
    returns true. *)
Lemma locked_body_thread c elapsed this r this' effects :
  locked_body c elapsed this = Some (r, this', effects) ->
  (forall t, joined t ∈ effects -> bound_to (mThread this) = Some t)
  /\ (forall t, bound_to (mThread this) = Some t ->
        bound_to (mThread this') = Some t
        /\ (forall a, c = call_bind_thread a -> r = ret_bool false))
  /\ (bound_to (mThread this) = None ->
      (bound_to (mThread this') = None
       /\ (forall a, c = call_bind_thread a -> r = ret_bool false))
      \/ (exists t, c = call_bind_thread (Some t) /\ r = ret_bool true
                    /\ mThread this' = thread_bound t)).
Proof.
  intros H. apply locked_body_inv in H.
  destruct (join_thread_locked_thread this) as [Hsame Hjoin].
  assert (Hnil : forall t, joined t ∉ @nil effect)
    by (intros t Ht; by apply elem_of_nil in Ht).
  assert (Hkeep : bound_to (mThread this') = bound_to (mThread this) ->
            (forall a, c <> call_bind_thread a) ->
            (forall t, bound_to (mThread this) = Some t ->
               bound_to (mThread this') = Some t
               /\ (forall a, c = call_bind_thread a -> r = ret_bool false))
            /\ (bound_to (mThread this) = None ->
                (bound_to (mThread this') = None
                 /\ (forall a, c = call_bind_thread a -> r = ret_bool false))
                \/ (exists t, c = call_bind_thread (Some t)
                              /\ r = ret_bool true
                              /\ mThread this' = thread_bound t))).
  { intros Heq Hc. split.
    - intros t Ht. split; [congruence |]. intros a Ha. by destruct (Hc a).
    - intros Hn. left. split; [congruence |]. intros a Ha. by destruct (Hc a). }
  destruct c as [| d | f | a | |].
  - destruct H as (_ & _ & H).
    rewrite <- H in Hsame, Hjoin. split; [done |]. by apply Hkeep.
  - destruct H as (status & _ & _ & _ & H). destruct (decide _).
    + rewrite <- H in Hsame, Hjoin. split; [done |]. by apply Hkeep.
    + simplify_eq. split; [intros t Ht; by apply Hnil in Ht |].
      by apply Hkeep.
  - destruct H as (_ & -> & ->). split; [intros t Ht; by apply Hnil in Ht |].
    apply Hkeep; [| done]. unfold on_finish. by destruct (mPostWork this), f.
  - destruct H as (-> & -> & ->). split; [intros t Ht; by apply Hnil in Ht |].
    unfold bind_thread.
    destruct (mThread this) as [| t0 | t0] eqn:Hth, a as [t |]; cbn;
      (split; [intros t' Ht'; simplify_eq; rewrite ?Hth; done |]);
      intros Hn; try done.
    + right. by exists t.
    + left. by rewrite Hth.
  - destruct H as (_ & H).
    rewrite <- H in Hsame, Hjoin. split; [done |]. by apply Hkeep.
  - destruct H as (_ & H). unfold notify, notify_work in H. simplify_eq.
    split.
    + intros t Ht. cbn in Ht. destruct (mPostWork this); [| by apply Hnil in Ht].
      by apply list_elem_of_singleton in Ht.
    + by apply Hkeep.
Qed.

(** Over a sequence of calls: only the bound thread is joined; a thread
    bound at the start stays the bound thread and no [bind_thread]
    succeeds; from an object without a bound thread at most one
    [bind_thread] succeeds, and the thread it binds is the bound thread at
    the end. *)
Lemma run_calls_thread cs : forall this0 rs this effects,
  run_calls cs this0 = Some (rs, this, effects) ->
  (forall t, joined t ∈ effects -> bound_to (mThread this) = Some t)
  /\ (forall t, bound_to (mThread this0) = Some t ->
        bound_to (mThread this) = Some t
        /\ successful_binds cs rs = 0
        /\ (forall t', ~ bound_before t' cs rs))
  /\ (bound_to (mThread this0) = None ->
      successful_binds cs rs <= 1
      /\ (forall t, bound_before t cs rs <-> bound_to (mThread this) = Some t)).
Proof.
  induction cs as [| [c e] cs IH]; intros this0 rs this effects H.
  - cbn in H. simplify_eq. split; [| split].
    + intros t Ht. by apply elem_of_nil in Ht.
    + intros t Ht. split; [done |]. split; [done |].
      intros t' (i & el & Hi & _). by rewrite lookup_nil in Hi.
    + intros Hn. split; [cbn; lia |]. intros t. rewrite Hn. split; [| done].
      intros (i & el & Hi & _). by rewrite lookup_nil in Hi.
  - cbn in H.
    destruct (Callbacks.locked_body _ c e this0) as [[[r this1] eff1] |] eqn:Hb;
      [| done].
    cbn in H.
    destruct (Callbacks.run_calls _ cs this1) as [[[rs' this2] eff2] |] eqn:Hr;
      [| done].
    cbn in H. simplify_eq.
    destruct (IH _ _ _ _ Hr) as (IHjoin & IHbound & IHfree).
    destruct (locked_body_thread _ _ _ _ _ _ Hb) as (Hjoin & Hbound & Hfree).
    assert (Hskip : (forall a, c = call_bind_thread a -> r = ret_bool false) ->
              successful_binds ((c, e) :: cs) (r :: rs')
              = successful_binds cs rs'
              /\ (forall t, bound_before t ((c, e) :: cs) (r :: rs')
                            <-> bound_before t cs rs')).
    { intros Hfalse. split.
      - destruct c; try done. by rewrite (Hfalse _ eq_refl).
      - intros t. split.
        + intros (i & el & Hi & Hri). destruct i as [| i].
          * cbn in Hi, Hri. simplify_eq. by specialize (Hfalse _ eq_refl).
          * by exists i, el.
        + intros (i & el & Hi & Hri). by exists (S i), el. }
    split; [| split].
    + intros t [Ht | Ht]%elem_of_app; [| by apply IHjoin].
      apply Hjoin in Ht. destruct (Hbound t Ht) as [Ht1 _].
      by destruct (IHbound t Ht1).
    + intros t Ht. destruct (Hbound t Ht) as [Ht1 Hfalse].
      destruct (IHbound t Ht1) as (Ht2 & Hcount & Hnone).
      destruct (Hskip Hfalse) as [-> Hsame].
      split; [done |]. split; [done |]. intros t' Hb'. apply Hsame in Hb'.
      by apply Hnone in Hb'.
    + intros Hn. destruct (Hfree Hn) as [[Hn1 Hfalse] | (t & -> & -> & Ht1)].
      * destruct (IHfree Hn1) as [Hcount Hiff].
        destruct (Hskip Hfalse) as [-> Hsame].
        split; [done |]. intros t. by rewrite Hsame.
      * assert (Hb1 : bound_to (mThread this1) = Some t) by by rewrite Ht1.
        destruct (IHbound t Hb1) as (Ht2 & Hcount & Hnone).
        split; [cbn; lia |]. intros t'. split.
        -- intros (i & el & Hi & Hri). destruct i as [| i].
           ++ cbn in Hi. by simplify_eq.
           ++ exfalso. apply (Hnone t'). by exists i, el.
        -- intros Ht'. assert (t' = t) as -> by congruence.
           by exists 0, e.
Qed.



(** C5 -- A [wait_for] on an object whose bound thread [t] is still to be
    reclaimed joins [t] exactly when it returns something else than
    [timeout], whatever status line 382 has given to the outcome of the
    wait; on [timeout] nothing is joined and the object is left as it was,
    so that a later [join_thread], or a [wait] once the object is
    notified, joins [t]. *)
Theorem wait_for_joins_unless_timeout
  (timeout_duration elapsed : nat) (this : CallbackBase) (t : thread_id)
  (status : cv_status) (this' : CallbackBase) (effects : list effect) :
  mThread this = thread_bound t ->
  wait_for timeout_duration elapsed this = Some (status, this', effects) ->
  (status <> timeout <-> joined t ∈ effects)
  /\ (status <> timeout ->
      effects = [joined t] /\ mThread this' = thread_reclaimed t)
  /\ (status = timeout ->
      effects = [] /\ this' = this
      /\ (join_thread this').2 = [joined t]
      /\ mThread (join_thread this').1 = thread_reclaimed t
      /\ (exists done,
            wait (notify this').1 = Some (done, [joined t])
            /\ mThread done = thread_reclaimed t)).
Proof.
  intros Ht H. apply wait_for_inv in H as (_ & _ & H).
  destruct (decide (status ≠ timeout)) as [Hs | Hs].
  - unfold join_thread_locked in H. rewrite Ht in H. simplify_eq.
    split; [| split]; [| done | done].
    split; [intros _; by apply list_elem_of_singleton | done].
  - apply dec_stable in Hs. simplify_eq. split; [| split].
    + split; [done |]. intros Hj. by apply elem_of_nil in Hj.
    + done.
    + intros _. unfold join_thread, wait, condition_wait, notify. cbn.
      unfold join_thread_locked. cbn. rewrite Ht. cbn.
      repeat (split; [done |]). by eexists.
Qed.

(** C1 -- The status that [wait_for] returns is the one that line 382
    gives to the flag as the wait finds it; the wait goes on exactly while
    the flag is unset and the duration is not over.  The result is the
    documented one ([no_timeout] exactly when the object was notified) on
    every object if and only if line 382 maps [true] to [no_timeout] and
    [false] to [timeout].  With the value of the [bool] kept it is the
    opposite: [timeout] on a notified object, and, once the duration has
    gone by, [no_timeout] on an object that is not notified, on which
    [getStatus] of the derived objects then still blocks. *)
Theorem wait_for_result :
  (forall d e this,
     wait_for d e this = None <-> mNotified this = false /\ e < d)
  /\ (forall d e this status this' effects,
        wait_for d e this = Some (status, this', effects) ->
        status = to_cv_status (mNotified this))
  /\ ((forall d e this status this' effects,
         wait_for d e this = Some (status, this', effects) ->
         (status = no_timeout <-> mNotified this = true))
      <-> to_cv_status true = no_timeout /\ to_cv_status false = timeout)
  /\ (forall d e this,
        mNotified this = true ->
        Callbacks.wait_for cv_status_by_value d e this = Some (timeout, this, []))
  /\ (forall d e this,
        mNotified this = false -> d <= e ->
        (forall t, mThread this <> thread_bound t) ->
        Callbacks.wait_for cv_status_by_value d e this
        = Some (no_timeout, this, [])
        /\ (forall p, pm_base p = this -> pm_getStatus p = None)
        /\ (forall x, ex_base x = this -> getStatus x = None)).
Proof.
  split.
  { intros d e this. destruct (mNotified this) eqn:Hn.
    - rewrite wait_for_notified by done. split; [done | by intros [? _]].
    - rewrite wait_for_pending by done. case_bool_decide.
      + split; [done | intros [_ ?]; lia].
      + split; [intros _; split; [done | lia] | done]. }
  split.
  { intros d e this status this' effects H. by apply wait_for_inv in H as (? & _). }
  split; [split |].
  - intros Hdoc. split.
    + pose proof (wait_for_notified 0 0 (notify_flip CallbackBase_new) eq_refl)
        as H.
      pose proof (proj2 (Hdoc _ _ _ _ _ _ H) eq_refl) as Hs. exact Hs.
    + pose proof (wait_for_pending 0 0 CallbackBase_new eq_refl) as H.
      rewrite bool_decide_true in H by done.
      pose proof (Hdoc _ _ _ _ _ _ H) as Hiff. cbn in Hiff.
      destruct (to_cv_status false); [| done].
      pose proof (proj1 Hiff eq_refl). done.
  - intros [Ht Hf] d e this status this' effects H.
    apply wait_for_inv in H as (-> & _).
    destruct (mNotified this); [by rewrite Ht | by rewrite Hf].
  - split.
    + intros d e this Hn. unfold Callbacks.wait_for, condition_wait_for.
      by rewrite Hn.
    + intros d e this Hn Hd Hth. unfold Callbacks.wait_for, condition_wait_for.
      rewrite Hn, bool_decide_true by done. cbn.
      split.
      { unfold join_thread_locked.
        destruct (mThread this) as [| t | t] eqn:Ht; [done | | done].
        by destruct (Hth t). }
      split; [intros p Hp; unfold pm_getStatus | intros x Hx; unfold getStatus];
        unfold wait, condition_wait; by rewrite ?Hp, ?Hx, Hn.
Qed.

(** *** Readers of a completed [PreparedModelCallback] *)

(** A call that does not complete the object keeps the flag and the two
    stored fields, and a reader returns the stored field. *)
Lemma pm_locked_body_keeps c elapsed this r this' effects :
  pm_completes c = false ->
  pm_locked_body c elapsed this = Some (r, this', effects) ->
  mNotified (pm_base this') = mNotified (pm_base this)
  /\ pm_mErrorStatus this' = pm_mErrorStatus this
  /\ pm_mPreparedModel this' = pm_mPreparedModel this
  /\ (forall s, r = pm_ret_status s -> s = pm_mErrorStatus this)
  /\ (forall m, r = pm_ret_model m -> m = pm_mPreparedModel this).
Proof.
  intros Hc H. destruct c as [c | s m | s m | |]; try done; cbn in H.
  - destruct (locked_body c elapsed (pm_base this)) as [[[r0 base] eff] |] eqn:Hb;
      cbn in H; [| done]. simplify_eq. cbn.
    apply locked_body_flag in Hb. rewrite Hb.
    destruct (decide (c = call_notify)) as [-> | _]; done.
  - unfold pm_getStatus, wait, condition_wait in H.
    destruct (mNotified (pm_base this)) eqn:Hn; cbn in H; [| done].
    destruct (join_thread_locked (pm_base this)) as [base eff] eqn:Hj.
    cbn in H. simplify_eq. cbn. unfold join_thread_locked in Hj.
    repeat split; try done; [| congruence].
    destruct (mThread (pm_base this)); simplify_eq; done.
  - unfold pm_getPreparedModel, wait, condition_wait in H.
    destruct (mNotified (pm_base this)) eqn:Hn; cbn in H; [| done].
    destruct (join_thread_locked (pm_base this)) as [base eff] eqn:Hj.
    cbn in H. simplify_eq. cbn. unfold join_thread_locked in Hj.
    repeat split; try done; [| congruence].
    destruct (mThread (pm_base this)); simplify_eq; done.
Qed.

Lemma pm_run_calls_keeps cs : forall this rs this' effects,
  (forall c e, (c, e) ∈ cs -> pm_completes c = false) ->
  pm_run_calls cs this = Some (rs, this', effects) ->
  mNotified (pm_base this') = mNotified (pm_base this)
  /\ pm_mErrorStatus this' = pm_mErrorStatus this
  /\ pm_mPreparedModel this' = pm_mPreparedModel this
  /\ (forall s, pm_ret_status s ∈ rs -> s = pm_mErrorStatus this)
  /\ (forall m, pm_ret_model m ∈ rs -> m = pm_mPreparedModel this).
Proof.
  induction cs as [| [c e] cs IH]; intros this rs this' effects Hcs H.
  - cbn in H. simplify_eq. repeat split; try done.
    all: intros x Hx; by apply elem_of_nil in Hx.
  - cbn in H.
    destruct (pm_locked_body c e this) as [[[r this1] eff1] |] eqn:Hb; [| done].
    cbn in H.
    destruct (pm_run_calls cs this1) as [[[rs' this2] eff2] |] eqn:Hr; [| done].
    cbn in H. simplify_eq.
    destruct (pm_locked_body_keeps _ _ _ _ _ _ (Hcs c e ltac:(left)) Hb)
      as (Hn & Hs & Hm & Hrs & Hrm).
    destruct (IH _ _ _ _ (fun c' e' H' => Hcs c' e' ltac:(right; exact H')) Hr)
      as (IHn & IHs & IHm & IHrs & IHrm).
    repeat split; try congruence.
    + intros s [Heq | Hin]%elem_of_cons; [by apply Hrs |].
      rewrite <- Hs. by apply IHrs.
    + intros m [Heq | Hin]%elem_of_cons; [by apply Hrm |].
      rewrite <- Hm. by apply IHrm.
Qed.

(** C3 -- Once a [PreparedModelCallback] has been completed by [notify] or
    [notify_1_2] with [(status, preparedModel)], whatever calls follow that
    do not complete it again: every [getStatus] among them returned
    [status], every [getPreparedModel] among them returned [preparedModel],
    and a further [getStatus] / [getPreparedModel] returns at once with
    these same two values. *)
Theorem pm_readers_return_what_was_notified
  (status : ErrorStatus) (preparedModel : sp_IPreparedModel)
  (this completed : PreparedModelCallback)
  (cs : list (pm_call * nat)) (rs : list pm_result)
  (this' : PreparedModelCallback) (effects : list effect) :
  completed = (pm_notify status preparedModel this).1
  \/ completed = (pm_notify_1_2 status preparedModel this).1 ->
  (forall c e, (c, e) ∈ cs -> pm_completes c = false) ->
  pm_run_calls cs completed = Some (rs, this', effects) ->
  (forall s, pm_ret_status s ∈ rs -> s = status)
  /\ (forall m, pm_ret_model m ∈ rs -> m = preparedModel)
  /\ (exists this'' effects', pm_getStatus this' = Some (status, this'', effects'))
  /\ (exists this'' effects',
        pm_getPreparedModel this' = Some (preparedModel, this'', effects')).
Proof.
  intros Hcompleted Hcs Hrun.
  assert (Hfields : mNotified (pm_base completed) = true
                    /\ pm_mErrorStatus completed = status
                    /\ pm_mPreparedModel completed = preparedModel).
  { destruct Hcompleted as [-> | ->]; done. }
  destruct Hfields as (Hn & Hs & Hm).
  destruct (pm_run_calls_keeps _ _ _ _ _ Hcs Hrun)
    as (Hn' & Hs' & Hm' & Hrs & Hrm).
  rewrite Hn in Hn'. rewrite Hs in Hs', Hrs. rewrite Hm in Hm', Hrm.
  split; [exact Hrs |]. split; [exact Hrm |].
  unfold pm_getStatus, pm_getPreparedModel, wait, condition_wait.
  rewrite Hn', Hs', Hm'. cbn.
  destruct (join_thread_locked (pm_base this')). split; by eexists _, _.
Qed.

(** *** Threads and the lock *)

Lemma step_cases w l w' : step w l = Some w' -> step_case w l w'.
Proof.
  intros H. destruct l as [| t c | t]; cbn in H.
  - simplify_eq. constructor.
  - destruct (threads w !! t) eqn:Ht; [done |]. simplify_eq. by constructor.
  - destruct (threads w !! t) as [[c | c since | | c r] |] eqn:Ht;
      [| | | | done].
    + destruct (mMutex w) eqn:Hm; [done |].
      destruct (decide (c = call_notify)) as [-> | Hc].
      * simplify_eq. by econstructor.
      * assert (H' : (if waits c && negb (mNotified (object w)) then
                        Some {| object := object w; mMutex := None;
                                threads :=
                                  <[t := pc_sleep c (now w)]> (threads w);
                                now := S (now w); history := history w |}
                      else
                        '(r, this', effects) ← locked_body c 0 (object w);
                        Some {| object := this'; mMutex := Some t;
                                threads := <[t := pc_unlock c r]> (threads w);
                                now := S (now w);
                                history := log w t (ev_effect <$> effects) |})
                     = Some w') by (destruct c; done).
        destruct (waits c && negb (mNotified (object w))) eqn:Hs.
        -- apply andb_true_iff in Hs as [Hwaits Hn].
           apply negb_true_iff in Hn. simplify_eq. by eapply step_sleep.
        -- destruct (locked_body c 0 (object w))
             as [[[r this'] effects] |] eqn:Hb; cbn in H'; [| done].
           simplify_eq. eapply step_body; eauto. intros _ Hwaits.
           rewrite Hwaits in Hs. cbn in Hs. by apply negb_false_iff in Hs.
    + destruct (mMutex w) eqn:Hm; [done |].
      destruct (decide (c = call_notify)) as [-> | Hc]; [done |].
      assert (H' : ('(r, this', effects) ←
                      locked_body c (now w - since) (object w);
                    Some {| object := this'; mMutex := Some t;
                            threads := <[t := pc_unlock c r]> (threads w);
                            now := S (now w);
                            history := log w t (ev_effect <$> effects) |})
                   = Some w') by (destruct c; done).
      destruct (locked_body c (now w - since) (object w))
        as [[[r this'] effects] |] eqn:Hb; cbn in H'; [| done].
      simplify_eq. by eapply step_body.
    + simplify_eq. by constructor.
    + simplify_eq. by constructor.
Qed.

Lemma elem_of_log w t es x :
  x ∈ log w t es <-> x ∈ history w \/ exists e, e ∈ es /\ x = (now w, t, e).
Proof.
  unfold log. rewrite elem_of_app, list_elem_of_fmap. split.
  - intros [? | (e & -> & ?)]; [by left | right; by exists e].
  - intros [? | (e & ? & ->)]; [by left | right; by exists e].
Qed.

(** Only [notify] invokes the deferred work. *)
Lemma locked_body_not_invoked c elapsed this r this' effects g :
  c <> call_notify ->
  locked_body c elapsed this = Some (r, this', effects) ->
  invoked g ∉ effects.
Proof.
  intros Hc H Hin. apply locked_body_inv in H.
  assert (Hj : invoked g ∉ (join_thread_locked this).2).
  { unfold join_thread_locked. destruct (mThread this); cbn; intros Hj.
    - by apply elem_of_nil in Hj.
    - by apply list_elem_of_singleton in Hj.
    - by apply elem_of_nil in Hj. }
  destruct c as [| d | f | a | |]; [| | | | | done].
  - destruct H as (_ & _ & H). by rewrite <- H in Hj.
  - destruct H as (status & _ & _ & _ & H). destruct (decide _).
    + by rewrite <- H in Hj.
    + simplify_eq. by apply elem_of_nil in Hin.
  - destruct H as (_ & _ & ->). by apply elem_of_nil in Hin.
  - destruct H as (_ & _ & ->). by apply elem_of_nil in Hin.
  - destruct H as (_ & H). by rewrite <- H in Hj.
Qed.

(** A waiting call is let through only by the flag. *)
Lemma locked_body_saw_flag c elapsed this r this' effects :
  locked_body c elapsed this = Some (r, this', effects) ->
  saw_flag c r = true -> mNotified this = true.
Proof.
  intros H Hs. apply locked_body_inv in H.
  destruct c as [| d | f | a | |]; try done.
  - by destruct H.
  - destruct H as (status & -> & -> & _). cbn in Hs.
    apply bool_decide_eq_true in Hs. by destruct (mNotified this).
Qed.

Ltac in_history :=
  repeat match goal with
    | H : _ ∈ log _ _ _ |- _ =>
        apply elem_of_log in H as [H | (? & H & ?)]
    | H : _ ∈ [] |- _ => by apply elem_of_nil in H
    | H : _ ∈ [_] |- _ => apply list_elem_of_singleton in H
    | H : _ ∈ _ <$> _ |- _ => apply list_elem_of_fmap in H as (? & ? & H)
    end; simplify_eq/=.

Ltac in_threads :=
  repeat match goal with
    | H : <[_ := _]> _ !! _ = Some _ |- _ =>
        apply lookup_insert_Some in H as [[? ?] | [? H]]
    | H : delete _ _ !! _ = Some _ |- _ =>
        apply lookup_delete_Some in H as [? H]
    end; simplify_eq/=.

(** A thread before the lock does not hold it. *)
Lemma at_lock_free now0 p c elapsed :
  at_lock now0 p = Some (c, elapsed) ->
  holds_lock p = false /\ p <> pc_notify_work
  /\ (in_notify p = true -> c = call_notify).
Proof. destruct p as [[] | | |]; intros H; by simplify_eq/=. Qed.

Lemma consistent_new : consistent world_new.
Proof.
  constructor; cbn; try (intros; in_history; done);
    try (intros; by rewrite lookup_empty in *).
  split; [done |]. intros (t & tid & H). by apply elem_of_nil in H.
Qed.

Lemma consistent_step w l w' : consistent w -> step w l = Some w' -> consistent w'.
Proof.
  intros C H.
  destruct (step_cases _ _ _ H)
    as [| t c Ht | t Ht Hm | t p c el r this' effects Ht Hp Hm Hc Hfirst Hb
        | t c Ht Hm Hc Hunset | t Ht | t c r Ht]; clear H.
  - (* tick *)
    destruct C. constructor; cbn; eauto.
    intros t' ???. assert (t' < now w) by eauto. lia.
  - (* invoke *)
    destruct C. constructor; cbn.
    + intros t' ?? Hin. in_history; [assert (t' < now w) by eauto |]; lia.
    + intros ?? Hin ?. in_threads. eauto.
    + rewrite cons_flag0. split; intros (t' & tid' & Hin); exists t', tid'.
      * apply elem_of_log. by left.
      * by in_history.
    + intros ?? Hin. in_threads. eauto.
    + intros ??? Hin. in_history. eauto.
    + intros ??? Hin ?. in_threads. eauto.
    + intros ???? Hin ?. in_history. eauto.
    + intros ? Hin. in_threads. eauto.
    + intros ??? Hin. in_history. eauto.
  - (* flip *)
    destruct C. constructor; cbn.
    + intros t' ?? Hin. in_history; [assert (t' < now w) by eauto |]; lia.
    + intros ?? Hin Hp. in_threads; [done |].
      specialize (cons_lock0 _ _ Hin Hp). congruence.
    + split; [intros _ | done]. exists (now w), t. apply elem_of_log. right.
      exists ev_flip. split; [by apply list_elem_of_singleton | done].
    + intros ?? Hin. in_threads. eauto.
    + intros ??? Hin. in_history. eauto.
    + done.
    + done.
    + done.
    + intros ??? Hin. in_history.
      destruct (cons_invoked0 _ _ _ Hin). done.
  - (* body *)
    destruct C.
    pose proof (locked_body_flag _ _ _ _ _ _ Hb) as Hflag.
    rewrite decide_False in Hflag by done.
    destruct (locked_body_post_work _ _ _ _ _ _ Hb) as [Hkeep Hfresh].
    assert (Hstable : forall f, f <> None -> mPostWork (object w) = f ->
                                mPostWork this' = f).
    { intros [g |] ? Hg; [| done]. by destruct (Hkeep g Hg). }
    constructor; cbn.
    + intros t' ?? Hin. in_history; [assert (t' < now w) by eauto |]; lia.
    + intros ?? Hin Hh. in_threads; [done |].
      specialize (cons_lock0 _ _ Hin Hh). congruence.
    + rewrite Hflag, cons_flag0.
      split; intros (t' & tid' & Hin); exists t', tid'.
      * apply elem_of_log. by left.
      * by in_history.
    + intros ?? Hin. in_threads.
      * destruct (mPostWork (object w)) as [g |] eqn:Hw.
        -- destruct (Hkeep g eq_refl) as [_ Hfalse].
           specialize (Hfalse _ eq_refl). done.
        -- destruct Hfresh as [Hreg _]; [done |]. by apply Hreg.
      * specialize (cons_lock0 _ _ Hin eq_refl). congruence.
    + intros ??? Hin. in_history.
      destruct (cons_registered0 _ _ _ Hin). split; [done |]. by apply Hstable.
    + intros ??? Hin Hs. in_threads.
      * rewrite Hflag. eapply locked_body_saw_flag; eauto.
      * specialize (cons_lock0 _ _ Hin eq_refl). congruence.
    + intros ???? Hin Hs. in_history. rewrite Hflag. eauto.
    + intros ? Hin. in_threads.
      specialize (cons_lock0 _ _ Hin eq_refl). congruence.
    + intros ??? Hin. in_history.
      * destruct (cons_invoked0 _ _ _ Hin). rewrite Hflag.
        split; [done |]. by apply Hstable.
      * exfalso. eapply locked_body_not_invoked; eauto.
  - (* going to sleep *)
    destruct C. constructor; cbn; eauto.
    + intros t' ???. assert (t' < now w) by eauto. lia.
    + intros ?? Hin Hh. in_threads.
      specialize (cons_lock0 _ _ Hin Hh). congruence.
    + intros ?? Hin. in_threads. eauto.
    + intros ??? Hin Hs. in_threads. eauto.
    + intros ? Hin. in_threads. eauto.
  - (* deferred work *)
    destruct C. constructor; cbn.
    + intros t' ?? Hin. in_history; [assert (t' < now w) by eauto |]; lia.
    + intros ?? Hin Hp. in_threads; eauto.
    + rewrite cons_flag0. split; intros (t' & tid' & Hin); exists t', tid'.
      * apply elem_of_log. by left.
      * by in_history.
    + intros ?? Hin. in_threads. eauto.
    + intros ??? Hin. in_history. eauto.
    + intros ??? Hin Hs. in_threads. eauto.
    + intros ???? Hin Hs. in_history. eauto.
    + intros ? Hin. in_threads. eauto.
    + intros ??? Hin. in_history; [eauto |].
      split; [eauto |]. unfold notify_work in *.
      destruct (mPostWork (object w)); in_history. done.
  - (* unlock *)
    destruct C. constructor; cbn.
    + intros t' ?? Hin. in_history; [assert (t' < now w) by eauto |]; lia.
    + intros ?? Hin Hp. in_threads.
      pose proof (cons_lock0 _ _ Hin Hp). pose proof (cons_lock0 _ _ Ht eq_refl).
      congruence.
    + rewrite cons_flag0. split; intros (t' & tid' & Hin); exists t', tid'.
      * apply elem_of_log. by left.
      * by in_history.
    + intros ?? Hin. in_threads. eauto.
    + intros ??? Hin. in_history; eauto.
    + intros ??? Hin Hs. in_threads. eauto.
    + intros ???? Hin Hs. in_history; eauto.
    + intros ? Hin. in_threads. eauto.
    + intros ??? Hin. in_history. eauto.
Qed.

Lemma run_consistent ls : forall w w',
  consistent w -> run w ls = Some w' -> consistent w'.
Proof.
  induction ls as [| l ls IH]; intros w w' C H; cbn in H; [by simplify_eq |].
  destruct (Callbacks.step _ w l) as [w1 |] eqn:Hstep; cbn in H; [| done].
  eapply IH; [| exact H]. by eapply consistent_step.
Qed.


(** Whatever the interleaving, the object is always in a state that the
    calls made so far, taken one after the other in the order in which they
    got the lock, lead to: what is proved of sequences of calls holds of
    the object shared by the threads. *)
Lemma run_calls_snoc cs : forall c elapsed this0 rs this effects r this' effects',
  run_calls cs this0 = Some (rs, this, effects) ->
  locked_body c elapsed this = Some (r, this', effects') ->
  run_calls (cs ++ [(c, elapsed)]) this0
  = Some (rs ++ [r], this', effects ++ effects').
Proof.
  induction cs as [| [c0 e0] cs IH];
    intros c elapsed this0 rs this effects r this' effects' Hrun Hbody.
  - cbn in Hrun. simplify_eq. cbn. rewrite Hbody. cbn. by rewrite app_nil_r.
  - cbn in Hrun |- *.
    destruct (Callbacks.locked_body _ c0 e0 this0) as [[[r0 this1] eff1] |];
      [| done].
    cbn in Hrun |- *.
    destruct (Callbacks.run_calls _ cs this1) as [[[rs1 this2] eff2] |] eqn:Hr;
      [| done].
    cbn in Hrun. simplify_eq.
    rewrite (IH _ _ _ _ _ _ _ _ _ Hr Hbody). cbn. by rewrite app_assoc.
Qed.

Lemma step_reached_by_calls w l w' :
  reached_by_calls (object w) -> step w l = Some w' ->
  reached_by_calls (object w').
Proof.
  intros (cs & rs & effects & Hrun) H.
  destruct (step_cases _ _ _ H)
    as [| t c Ht | t Ht Hm | t p c el r this' effects' Ht Hp Hm Hc Hfirst Hb
        | t c Ht Hm Hc Hunset | t Ht | t c r Ht]; clear H; cbn;
    try by exists cs, rs, effects.
  - exists (cs ++ [(call_notify, 0)]), (rs ++ [ret_void]),
      (effects ++ notify_work (notify_flip (object w))).
    by apply (run_calls_snoc _ _ _ _ _ _ _ _ _ _ Hrun).
  - eexists _, _, _. by apply (run_calls_snoc _ _ _ _ _ _ _ _ _ _ Hrun Hb).
Qed.

Lemma run_reached_by_calls ls : forall w w',
  reached_by_calls (object w) -> run w ls = Some w' ->
  reached_by_calls (object w').
Proof.
  induction ls as [| l ls IH]; intros w w' R H; cbn in H; [by simplify_eq |].
  destruct (Callbacks.step _ w l) as [w1 |] eqn:Hstep; cbn in H; [| done].
  eapply IH; [| exact H]. by eapply step_reached_by_calls.
Qed.

Lemma run_app ls1 : forall ls2 w,
  run w (ls1 ++ ls2) = w1 ← run w ls1; run w1 ls2.
Proof.
  induction ls1 as [| l ls1 IH]; intros ls2 w; cbn; [done |].
  destruct (Callbacks.step _ w l) as [w1 |]; cbn; [apply IH | done].
Qed.

(** *** The deferred work and the waiters *)

Lemma nothing_yet_more h now0 t es :
  nothing_yet h ->
  (forall g, ev_effect (invoked g) ∉ es) ->
  (forall c r, ev_return c r ∈ es -> saw_flag c r = false) ->
  nothing_yet (h ++ ((fun e => (now0, t, e)) <$> es)).
Proof.
  intros [Hi Hr] Hes1 Hes2. split.
  - intros t1 tid1 g [Hin | Hin]%elem_of_app; [by apply Hi in Hin |].
    apply list_elem_of_fmap in Hin as (e & ? & Hin). simplify_eq.
    by apply Hes1 in Hin.
  - intros t1 tid1 c r [Hin | Hin]%elem_of_app; [by eapply Hr |].
    apply list_elem_of_fmap in Hin as (e & ? & Hin). simplify_eq.
    by apply Hes2.
Qed.

Lemma work_done_more tn f t' h now0 t es :
  work_done tn f t' h ->
  t' < now0 ->
  (forall g, ev_effect (invoked g) ∉ es) ->
  work_done tn f t' (h ++ ((fun e => (now0, t, e)) <$> es)).
Proof.
  intros [Hi Hr] Hlt Hes. split.
  - intros t1 tid1 g. rewrite <- Hi, elem_of_app. split; [| by left].
    intros [Hin | Hin]; [done |].
    apply list_elem_of_fmap in Hin as (e & ? & Hin). simplify_eq.
    by apply Hes in Hin.
  - intros t1 tid1 c r [Hin | Hin]%elem_of_app Hs; [by eapply Hr |].
    apply list_elem_of_fmap in Hin as (e & ? & Hin). by simplify_eq.
Qed.

Lemma work_done_first tn f h now0 :
  nothing_yet h ->
  work_done tn f now0 (h ++ [(now0, tn, ev_effect (invoked f))]).
Proof.
  intros [Hi Hr]. split.
  - intros t1 tid1 g. rewrite elem_of_app, list_elem_of_singleton. split.
    + intros [Hin | ?]; [by apply Hi in Hin | by simplify_eq].
    + intros (-> & -> & ->). by right.
  - intros t1 tid1 c r [Hin | Hin]%elem_of_app Hs.
    + apply Hr in Hin. congruence.
    + by apply list_elem_of_singleton in Hin.
Qed.

Lemma work_done_time (w : world) tn f t' :
  consistent w -> work_done tn f t' (history w) -> t' < now w.
Proof.
  intros C [Hi _]. eapply (cons_time _ C _ tn (ev_effect (invoked f))).
  by apply Hi.
Qed.

Lemma before_notify_new : before_notify world_new.
Proof. split; [| done]. intros tid p H. cbn in H. by rewrite lookup_empty in H. Qed.

Lemma before_notify_step w l w' :
  before_notify w -> (forall t, l <> invoke t call_notify) ->
  step w l = Some w' -> before_notify w'.
Proof.
  intros [Hpcs Hflag] Hl H.
  destruct (step_cases _ _ _ H)
    as [| t c Ht | t Ht Hm | t p c el r this' effects Ht Hp Hm Hc Hfirst Hb
        | t c Ht Hm Hc Hunset | t Ht | t c r Ht]; clear H; split; cbn; try done.
  - assert (Hc : c <> call_notify) by (intros ->; by destruct (Hl t)).
    intros tid p Hin. in_threads; [by destruct c | eauto].
  - by apply Hpcs in Ht.
  - by apply Hpcs in Ht.
  - intros tid p' Hin. in_threads; eauto.
  - apply locked_body_flag in Hb. rewrite decide_False in Hb by done. congruence.
  - intros tid p Hin. in_threads; eauto.
  - intros tid p Hin. in_threads; eauto.
  - intros tid p Hin. in_threads; eauto.
Qed.

Lemma before_notify_run ls : forall w w',
  before_notify w -> (forall t, invoke t call_notify ∉ ls) ->
  run w ls = Some w' -> before_notify w'.
Proof.
  induction ls as [| l ls IH]; intros w w' B Hls H; cbn in H; [by simplify_eq |].
  destruct (Callbacks.step _ w l) as [w1 |] eqn:Hstep; cbn in H; [| done].
  eapply IH; [| | exact H].
  - eapply before_notify_step; [done | | done].
    intros t ->. apply (Hls t). by left.
  - intros t Hin. apply (Hls t). by right.
Qed.

Lemma after_notify_start w tn f w' :
  before_notify w -> mPostWork (object w) = Some f ->
  step w (invoke tn call_notify) = Some w' -> after_notify tn f w'.
Proof.
  intros [Hpcs Hflag] Hw H. cbn in H.
  destruct (threads w !! tn) eqn:Ht; [done |]. simplify_eq.
  split; [| split]; cbn.
  - intros tid p Hin Hn. in_threads; [done |]. apply Hpcs in Hin. congruence.
  - done.
  - by rewrite lookup_insert_eq.
Qed.

(** A step of a thread that is not inside [notify] leaves the thread that
    called [notify] where it is. *)
Lemma notify_stage_other (ts : gmap thread_id pc) t tn p p' :
  ts !! t = Some p -> in_notify p = false -> in_notify p' = false ->
  notify_stage (<[t := p']> ts !! tn) = notify_stage (ts !! tn).
Proof.
  intros Ht Hp Hp'. destruct (decide (t = tn)) as [-> | Hne].
  - rewrite lookup_insert_eq, Ht.
    destruct p as [[] | | |], p' as [[] | | |]; done.
  - by rewrite lookup_insert_ne.
Qed.

Lemma after_notify_step w l w' tn f :
  consistent w -> after_notify tn f w ->
  (forall t, l <> invoke t call_notify) ->
  step w l = Some w' -> after_notify tn f w'.
Proof.
  intros C (Honly & Hw & Hstage) Hl H.
  destruct (step_cases _ _ _ H)
    as [| t c Ht | t Ht Hm | t p c el r this' effects Ht Hp Hm Hc Hfirst Hb
        | t c Ht Hm Hc Hunset | t Ht | t c r Ht]; clear H.
  - (* tick *) done.
  - (* invoke *)
    assert (Hc : c <> call_notify) by (intros ->; by destruct (Hl t)).
    split; [| split]; cbn; [| done |].
    + intros tid p Hin Hn. in_threads; [by destruct c | eauto].
    + assert (Hnew : notify_stage (<[t := pc_entry c]> (threads w) !! tn)
                     = notify_stage (threads w !! tn)).
      { destruct (decide (t = tn)) as [-> | Hne].
        - rewrite lookup_insert_eq, Ht. by destruct c.
        - by rewrite lookup_insert_ne. }
      rewrite Hnew. destruct (notify_stage (threads w !! tn)); [done | |].
      * apply nothing_yet_more; [done | |].
        -- intros g Hin. by apply list_elem_of_singleton in Hin.
        -- intros c' r' Hin. by apply list_elem_of_singleton in Hin.
      * destruct Hstage as [t' Hd]. exists t'.
        apply work_done_more; [done | by eapply work_done_time |].
        intros g Hin. by apply list_elem_of_singleton in Hin.
  - (* flip *)
    assert (t = tn) as -> by (by eapply Honly).
    rewrite Ht in Hstage. cbn in Hstage.
    split; [| split]; cbn; [| done |].
    + intros tid p Hin Hn. in_threads; eauto.
    + rewrite lookup_insert_eq. cbn. apply nothing_yet_more.
      * split.
        -- intros t1 tid1 g Hin.
           destruct (cons_invoked _ C _ _ _ Hin). congruence.
        -- intros t1 tid1 c r Hin.
           destruct (Callbacks.saw_flag _ c r) eqn:Hs; [| done].
           pose proof (cons_saw _ C _ _ _ _ Hin Hs). congruence.
      * intros g Hin. by apply list_elem_of_singleton in Hin.
      * intros c r Hin. by apply list_elem_of_singleton in Hin.
  - (* body *)
    destruct (locked_body_post_work _ _ _ _ _ _ Hb) as [Hkeep _].
    destruct (Hkeep f Hw) as [Hw' _].
    pose proof (locked_body_flag _ _ _ _ _ _ Hb) as Hflag.
    rewrite decide_False in Hflag by done.
    assert (Hnoinv : forall g, ev_effect (invoked g) ∉ ev_effect <$> effects).
    { intros g Hin. apply list_elem_of_fmap in Hin as (e & ? & Hin).
      simplify_eq. by eapply locked_body_not_invoked. }
    assert (Hp' : in_notify p = false).
    { destruct (at_lock_free _ _ _ _ Hp) as (_ & _ & Hn).
      destruct (in_notify p); [by destruct Hc; apply Hn | done]. }
    split; [| split]; cbn; [| done |].
    + intros tid p0 Hin Hn. in_threads; eauto.
    + rewrite (notify_stage_other _ _ _ _ (pc_unlock c r) Ht Hp' eq_refl).
      destruct (notify_stage (threads w !! tn)).
      * congruence.
      * apply nothing_yet_more; [done | done |].
        intros c' r' Hin. apply list_elem_of_fmap in Hin as (e & ? & Hin). done.
      * destruct Hstage as [t' Hd]. exists t'.
        apply work_done_more; [done | by eapply work_done_time | done].
  - (* going to sleep *)
    assert (Hp' : in_notify (pc_entry c) = false) by by destruct c.
    split; [| split]; cbn; [| done |].
    + intros tid p0 Hin Hn. in_threads; eauto.
    + by rewrite (notify_stage_other _ _ _ _ (pc_sleep c (now w)) Ht Hp' eq_refl).
  - (* deferred work *)
    assert (t = tn) as -> by (by eapply Honly).
    rewrite Ht in Hstage. cbn in Hstage.
    split; [| split]; cbn; [| done |].
    + intros tid p Hin Hn. in_threads; eauto.
    + rewrite lookup_insert_eq. cbn. exists (now w).
      unfold log, notify_work. rewrite Hw. cbn. by apply work_done_first.
  - (* unlock *)
    split; [| split]; cbn; [| done |].
    + intros tid p Hin Hn. in_threads; eauto.
    + assert (Hnew : notify_stage (delete t (threads w) !! tn)
                     = notify_stage (threads w !! tn)).
      { destruct (decide (t = tn)) as [-> | Hne].
        - by rewrite lookup_delete_eq, Ht.
        - by rewrite lookup_delete_ne. }
      rewrite Hnew. destruct (notify_stage (threads w !! tn)) eqn:Hst.
      * done.
      * exfalso.
        destruct (threads w !! tn) as [[[] | | | ] |] eqn:Htn; try done.
        pose proof (cons_lock _ C _ _ Htn eq_refl).
        pose proof (cons_lock _ C _ _ Ht eq_refl).
        assert (t = tn) by congruence. subst. congruence.
      * destruct Hstage as [t' Hd]. exists t'.
        apply work_done_more; [done | by eapply work_done_time |].
        intros g Hin. by apply list_elem_of_singleton in Hin.
Qed.

Lemma after_notify_run ls tn f : forall w w',
  consistent w -> after_notify tn f w ->
  (forall t, invoke t call_notify ∉ ls) ->
  run w ls = Some w' -> after_notify tn f w'.
Proof.
  induction ls as [| l ls IH]; intros w w' C A Hls H; cbn in H;
    [by simplify_eq |].
  destruct (Callbacks.step _ w l) as [w1 |] eqn:Hstep; cbn in H; [| done].
  eapply IH; [| | | exact H].
  - by eapply consistent_step.
  - eapply after_notify_step; [done | done | | done].
    intros t ->. apply (Hls t). by left.
  - intros t Hin. apply (Hls t). by right.
Qed.


(** A sleeping [wait_for] on an object that is not notified and has no
    thread to join wakes once its duration has gone by, with the status
    that line 382 gives to an unset flag. *)
Lemma step_wake_expired w t d since :
  threads w !! t = Some (pc_sleep (call_wait_for d) since) ->
  mMutex w = None ->
  mNotified (object w) = false ->
  mThread (object w) = thread_none ->
  since + d <= now w ->
  step w (advance t)
  = Some {| object := object w; mMutex := Some t;
            threads :=
              <[t := pc_unlock (call_wait_for d)
                       (ret_cv_status (to_cv_status false))]> (threads w);
            now := S (now w); history := log w t [] |}.
Proof.
  intros Ht Hm Hn Hth Hd. unfold Callbacks.step. rewrite Ht, Hm. cbn.
  rewrite wait_for_pending, bool_decide_true by (done || lia).
  unfold join_thread_locked. rewrite Hth.
  by destruct (decide _).
Qed.


End CallbackFacts.

(** *** The properties at concrete objects and runs *)

Section CallbackWitnesses.
Import Callbacks.

(** Line 382 read as keeping the value of the [bool]. *)
Local Abbreviation run_calls := (Callbacks.run_calls cv_status_by_value).
Local Abbreviation pm_run_calls := (Callbacks.pm_run_calls cv_status_by_value).
Local Abbreviation step := (Callbacks.step cv_status_by_value).
Local Abbreviation run := (Callbacks.run cv_status_by_value).

Lemma on_finish_registers_once_witness :
  let f := Target 7 true in
  let g := Target 8 true in
  let cs := [(call_on_finish None, 0); (call_on_finish (Some f), 0)] in
  let this := {| mNotified := false; mPostWork := Some f;
                 mThread := thread_none |} in
  run_calls cs CallbackBase_new = Some ([ret_bool false; ret_bool true], this, [])
  /\ on_finish (Some g) this = (false, this)
  /\ on_finish (Some f) CallbackBase_new = (true, this).
Proof.
  intros f g cs this.
  assert (Hrun : run_calls cs CallbackBase_new
                 = Some ([ret_bool false; ret_bool true], this, []))
    by reflexivity.
  split; [exact Hrun |]. split.
  - apply (on_finish_registers_once cv_status_by_value (Some g) this)
      with (1 := Hrun).
    right. exists 1, (Some f), 0. split; reflexivity.
  - apply (on_finish_registers_once cv_status_by_value (Some f)
             CallbackBase_new); done.
Defined.


(** Both readings of line 382, on a pending object whose duration is over
    and on a notified one: the join goes with the status, not with the
    flag. *)
Lemma wait_for_joins_unless_timeout_witness :
  let pending := {| mNotified := false; mPostWork := None;
                    mThread := thread_bound 4 |} in
  let notified := {| mNotified := true; mPostWork := None;
                     mThread := thread_bound 4 |} in
  let reclaimed b := {| mNotified := b; mPostWork := None;
                        mThread := thread_reclaimed 4 |} in
  Callbacks.wait_for cv_status_by_value 5 5 pending
  = Some (no_timeout, reclaimed false, [joined 4])
  /\ Callbacks.wait_for cv_status_by_value 5 3 notified
     = Some (timeout, notified, [])
  /\ Callbacks.wait_for cv_status_as_documented 5 5 pending
     = Some (timeout, pending, [])
  /\ Callbacks.wait_for cv_status_as_documented 5 3 notified
     = Some (no_timeout, reclaimed true, [joined 4])
  /\ (no_timeout <> timeout <-> joined 4 ∈ [joined 4])
  /\ (timeout <> timeout <-> joined 4 ∈ @nil effect)
  /\ (join_thread notified).2 = [joined 4]
  /\ (exists done,
        wait (notify pending).1 = Some (done, [joined 4])
        /\ mThread done = thread_reclaimed 4).
Proof.
  intros pending notified reclaimed.
  assert (H1 : Callbacks.wait_for cv_status_by_value 5 5 pending
               = Some (no_timeout, reclaimed false, [joined 4]))
    by reflexivity.
  assert (H2 : Callbacks.wait_for cv_status_by_value 5 3 notified
               = Some (timeout, notified, [])) by reflexivity.
  assert (H3 : Callbacks.wait_for cv_status_as_documented 5 5 pending
               = Some (timeout, pending, [])) by reflexivity.
  assert (H4 : Callbacks.wait_for cv_status_as_documented 5 3 notified
               = Some (no_timeout, reclaimed true, [joined 4]))
    by reflexivity.
  split; [exact H1 |]. split; [exact H2 |].
  split; [exact H3 |]. split; [exact H4 |].
  split.
  { apply (wait_for_joins_unless_timeout cv_status_by_value 5 5 pending 4
             no_timeout _ _ eq_refl H1). }
  split.
  { apply (wait_for_joins_unless_timeout cv_status_as_documented 5 5 pending 4
             timeout _ _ eq_refl H3). }
  destruct (wait_for_joins_unless_timeout cv_status_by_value 5 3 notified 4
              timeout _ _ eq_refl H2) as (_ & _ & Hlater).
  destruct (wait_for_joins_unless_timeout cv_status_as_documented 5 5 pending 4
              timeout _ _ eq_refl H3) as (_ & _ & Hlater').
  split; [apply (Hlater eq_refl) | apply (Hlater' eq_refl)].
Defined.

Lemma pm_readers_return_what_was_notified_witness :
  let this := mkPreparedModelCallback
                {| mNotified := false; mPostWork := None;
                   mThread := thread_bound 3 |}
                NONE (Some 9) in
  let completed := (pm_notify GENERAL_FAILURE None this).1 in
  let cs := [(pm_call_getStatus, 0); (pm_call_base (call_wait_for 4), 1);
             (pm_call_getPreparedModel, 0); (pm_call_getStatus, 2)] in
  exists this',
    pm_run_calls cs completed
    = Some ([pm_ret_status GENERAL_FAILURE;
             pm_ret (ret_cv_status timeout);
             pm_ret_model None; pm_ret_status GENERAL_FAILURE],
            this', [joined 3])
    /\ (exists this'' effects',
          pm_getStatus this' = Some (GENERAL_FAILURE, this'', effects'))
    /\ (exists this'' effects',
          pm_getPreparedModel this' = Some (None, this'', effects')).
Proof.
  intros this completed cs. eexists. split; [reflexivity |].
  eapply (pm_readers_return_what_was_notified cv_status_by_value
            GENERAL_FAILURE None this completed cs).
  - left. reflexivity.
  - intros c e Hin. unfold cs in Hin.
    repeat (apply elem_of_cons in Hin as [Hin | Hin];
            [by simplify_eq |]).
    by apply elem_of_nil in Hin.
  - reflexivity.
Defined.

(** A waiter sleeps until the flag is set or its duration has gone by, and
    nobody gets past the lock while [notify] is between the flip and the
    deferred work. *)
Example wait_sleeps_until_notified :
  threads <$> run world_new [invoke 2 call_wait; advance 2]
  = Some {[2 := pc_sleep call_wait 1]}
  /\ run world_new [invoke 2 call_wait; advance 2; advance 2] = None
  /\ run world_new [invoke 2 (call_wait_for 5); advance 2; tick; tick;
                    advance 2] = None
  /\ run world_new [invoke 2 call_wait; invoke 0 call_notify; advance 0;
                    advance 2] = None
  /\ history <$> run world_new [invoke 2 call_wait; advance 2;
                                invoke 0 call_notify;
                                advance 0; advance 0; advance 0;
                                advance 2; advance 2]
     = Some [(0, 2, ev_call call_wait); (2, 0, ev_call call_notify);
             (3, 0, ev_flip); (5, 0, ev_return call_notify ret_void);
             (7, 2, ev_return call_wait ret_void)].
Proof. repeat split; vm_compute; reflexivity. Qed.


End CallbackWitnesses.

(* ===================================================================== *)
(** ** More on [stridedSliceGeneric]: what it checks, reads and hands over *)
(* ===================================================================== *)

Section StridedSliceCoverage.
Import StridedSlice.
Local Open Scope Z_scope.

Context (ClampedIndex : Z -> Z -> bool -> Z) (ReverseMaskBits : Z -> nat -> Z).
Context (Dims : Type) (convertShapeToDims : Shape -> Dims).
Context (inputShape : Shape).

(** The first loop gives up exactly when one of the strides it reads is
    zero. *)
Lemma bounds_loop_none_iff bD bM eD eM sD (n : nat) vs :
  bounds_loop ClampedIndex inputShape bD bM eD eM sD n vs = None
  <-> exists idx, (idx < n)%nat /\ sD idx = 0.
Proof.
  revert vs. induction n as [| n IH]; intros [[s e] t].
  - split; [done |]. intros (idx & ? & _). lia.
  - cbn [bounds_loop]. unfold NN_OPS_CHECK.
    destruct (sD n =? 0) eqn:Hz; cbn [negb].
    + apply Z.eqb_eq in Hz. split; [| done]. intros _. exists n. split; [lia | done].
    + apply Z.eqb_neq in Hz. rewrite IH. split.
      * intros (idx & ? & ?). exists idx. split; [lia | done].
      * intros (idx & Hlt & Hidx). exists idx. split; [| done].
        destruct (decide (idx = n)) as [-> | ?]; [done | lia].
Qed.

(** When it runs through, each vector has grown by one entry per
    dimension, and the strides appended are the ones read, last dimension
    first, none of them zero. *)
Lemma bounds_loop_shape bD bM eD eM sD (n : nat) : forall s e t s' e' t',
  bounds_loop ClampedIndex inputShape bD bM eD eM sD n (s, e, t)
  = Some (s', e', t') ->
  length s' = (length s + n)%nat /\ length e' = (length e + n)%nat
  /\ t' = t ++ (sD <$> reverse (seq 0 n))
  /\ forall idx, (idx < n)%nat -> sD idx <> 0.
Proof.
  induction n as [| n IH]; intros s e t s' e' t' H.
  - cbn in H. simplify_eq. rewrite app_nil_r.
    split; [lia |]. split; [lia |]. split; [done |]. intros idx ?. lia.
  - cbn [bounds_loop] in H. unfold NN_OPS_CHECK in H.
    destruct (sD n =? 0) eqn:Hz; cbn [negb] in H; [done |].
    apply Z.eqb_neq in Hz. apply IH in H as (Hs & He & Ht & Hnz).
    rewrite length_app in Hs, He. cbn in Hs, He.
    split; [lia |]. split; [lia |]. split.
    + rewrite Ht, seq_S, reverse_snoc, fmap_cons, <- app_assoc. done.
    + intros idx Hlt. destruct (decide (idx = n)) as [-> | ?]; [done |].
      apply Hnz. lia.
Qed.

(** The first loop reads its three buffers below the rank only, and where
    a mask bit is set it does not look at the begin (resp. end) datum. *)
Lemma bounds_loop_agree bD bM eD eM sD bD' bM' eD' eM' sD' (n : nat) vs :
  (forall idx, (idx < n)%nat -> sD idx = sD' idx) ->
  (forall idx, (idx < n)%nat ->
     let bit := to_int32 (Z.shiftl 1 (Z.of_nat idx)) in
     (Z.land bM bit =? 0) = (Z.land bM' bit =? 0)
     /\ ((Z.land bM bit =? 0) = true -> bD idx = bD' idx)) ->
  (forall idx, (idx < n)%nat ->
     let bit := to_int32 (Z.shiftl 1 (Z.of_nat idx)) in
     (Z.land eM bit =? 0) = (Z.land eM' bit =? 0)
     /\ ((Z.land eM bit =? 0) = true -> eD idx = eD' idx)) ->
  bounds_loop ClampedIndex inputShape bD bM eD eM sD n vs
  = bounds_loop ClampedIndex inputShape bD' bM' eD' eM' sD' n vs.
Proof.
  revert vs. induction n as [| n IH]; intros [[s e] t] Hs Hb He; [done |].
  cbn [bounds_loop]. rewrite <- (Hs n) by lia.
  destruct (Hb n ltac:(lia)) as [Hbm Hbd]. destruct (He n ltac:(lia)) as [Hem Hed].
  cbn zeta in Hbm, Hbd, Hem, Hed. rewrite <- Hbm, <- Hem.
  unfold NN_OPS_CHECK. destruct (negb (sD n =? 0)); [| done].
  assert (Hbegin :
    (if negb (Z.land bM (to_int32 (Z.shiftl 1 (Z.of_nat n))) =? 0)
     then (if 0 <? sD n then 0
           else to_int32 (to_int32 (getSizeOfDimension inputShape n) - 1))
     else ClampedIndex (bD n) (to_int32 (getSizeOfDimension inputShape n))
            (0 <? sD n))
    = (if negb (Z.land bM (to_int32 (Z.shiftl 1 (Z.of_nat n))) =? 0)
       then (if 0 <? sD n then 0
             else to_int32 (to_int32 (getSizeOfDimension inputShape n) - 1))
       else ClampedIndex (bD' n) (to_int32 (getSizeOfDimension inputShape n))
              (0 <? sD n))).
  { destruct (Z.land bM _ =? 0); cbn [negb]; [by rewrite Hbd | done]. }
  assert (Hend :
    (if negb (Z.land eM (to_int32 (Z.shiftl 1 (Z.of_nat n))) =? 0)
     then (if 0 <? sD n then to_int32 (getSizeOfDimension inputShape n) else -1)
     else ClampedIndex (eD n) (to_int32 (getSizeOfDimension inputShape n))
            (0 <? sD n))
    = (if negb (Z.land eM (to_int32 (Z.shiftl 1 (Z.of_nat n))) =? 0)
       then (if 0 <? sD n then to_int32 (getSizeOfDimension inputShape n) else -1)
       else ClampedIndex (eD' n) (to_int32 (getSizeOfDimension inputShape n))
              (0 <? sD n))).
  { destruct (Z.land eM _ =? 0); cbn [negb]; [by rewrite Hed | done]. }
  rewrite Hbegin, Hend. apply IH.
  - intros idx ?. apply Hs. lia.
  - intros idx ?. apply Hb. lia.
  - intros idx ?. apply He. lia.
Qed.

Local Abbreviation generic bD bM eD eM sD :=
  (stridedSliceGeneric ClampedIndex ReverseMaskBits Dims convertShapeToDims
     inputShape bD bM eD eM sD).

(** What a kernel call of [stridedSliceGeneric] is made of: the vectors of
    the first loop, run through, with the padding of the second one. *)
Lemma generic_call_inv bD bM eD eM sD inputData outputData outputShape c :
  c ∈ (generic bD bM eD eM sD inputData outputData outputShape).2 ->
  exists s e t,
    bounds_loop ClampedIndex inputShape bD bM eD eM sD
      (getNumberOfDimensions inputShape) ([], [], []) = Some (s, e, t)
    /\ starts c = s ++ replicate (kMaxDim - getNumberOfDimensions inputShape) 0
    /\ stops c = e ++ replicate (kMaxDim - getNumberOfDimensions inputShape) 1
    /\ strides c = t ++ replicate (kMaxDim - getNumberOfDimensions inputShape) 1.
Proof.
  unfold stridedSliceGeneric.
  destruct (bounds_loop _ _ _ _ _ _ _ _ _) as [[[s e] t] |]; cbn;
    [| intros Hc; by apply elem_of_nil in Hc].
  rewrite pad_loop_replicate. intros Hc. exists s, e, t. split; [done |].
  destruct (decide _); [| destruct (decide _)].
  - apply list_elem_of_singleton in Hc. by subst c.
  - apply list_elem_of_singleton in Hc. by subst c.
  - by apply elem_of_nil in Hc.
Qed.

(** X1 -- [stridedSliceGeneric] returns true exactly when every stride it
    reads (one per dimension) is non-zero and the operand type is
    TENSOR_FLOAT32 or TENSOR_QUANT8_ASYMM; nothing else is checked (neither
    the rank nor the output shape).  When it returns false no kernel call
    has been made; when it returns true exactly one has, at the element
    type of the operand and on the buffers and shapes it was given. *)
Theorem stridedSliceGeneric_returns_true_iff
  bD bM eD eM sD (inputData outputData : list Z) (outputShape : Shape) :
  let r := generic bD bM eD eM sD inputData outputData outputShape in
  (r.1 = true
   <-> (forall idx, (idx < getNumberOfDimensions inputShape)%nat -> sD idx <> 0)
       /\ (type inputShape = TENSOR_FLOAT32
           \/ type inputShape = TENSOR_QUANT8_ASYMM))
  /\ (r.1 = false <-> r.2 = [])
  /\ (r.1 = true <->
      exists c, r.2 = [c]
        /\ elem c = (if decide (type inputShape = TENSOR_FLOAT32)
                     then elem_float else elem_uint8)
        /\ input_data c = inputData /\ output_data c = outputData
        /\ input_dims c = convertShapeToDims inputShape
        /\ output_dims c = convertShapeToDims outputShape).
Proof.
  unfold stridedSliceGeneric.
  destruct (bounds_loop _ _ _ _ _ _ _ _ _) as [[[s e] t] |] eqn:Hloop.
  - rewrite pad_loop_replicate.
    apply bounds_loop_shape in Hloop as (_ & _ & _ & Hnz).
    destruct (decide (type inputShape = TENSOR_FLOAT32)) as [Hf | Hf];
      [| destruct (decide (type inputShape = TENSOR_QUANT8_ASYMM)) as [Hq | Hq]];
      cbn.
    + split; [split; [intros _; split; [done | by left] | done] |].
      split; [done |]. split; [intros _; by eexists | done].
    + split; [split; [intros _; split; [done | by right] | done] |].
      split; [done |]. split; [intros _; by eexists | done].
    + split; [split; [done | intros [_ [? | ?]]; done] |].
      split; [done |]. split; [done | intros (c & ? & _); done].
  - apply bounds_loop_none_iff in Hloop as (idx & Hlt & Hz). cbn.
    split; [split; [done | intros [Hnz _]; by apply Hnz in Hz] |].
    split; [done |]. split; [done | intros (c & ? & _); done].
Qed.

(** X2 -- The three vectors handed to the kernel always have the same
    length, the larger of the rank and 4: a rank below 4 is padded, a rank
    above 4 is neither refused nor cut. *)
Theorem stridedSliceGeneric_vector_lengths
  bD bM eD eM sD (inputData outputData : list Z) (outputShape : Shape) c :
  c ∈ (generic bD bM eD eM sD inputData outputData outputShape).2 ->
  length (starts c) = Nat.max (getNumberOfDimensions inputShape) kMaxDim
  /\ length (stops c) = Nat.max (getNumberOfDimensions inputShape) kMaxDim
  /\ length (strides c) = Nat.max (getNumberOfDimensions inputShape) kMaxDim.
Proof.
  intros (s & e & t & Hloop & -> & -> & ->)%generic_call_inv.
  apply bounds_loop_shape in Hloop as (Hs & He & -> & _).
  rewrite !length_app, !length_replicate, length_fmap, length_reverse,
    length_seq, Hs, He. cbn. unfold kMaxDim. lia.
Qed.

(** X3 -- No stride handed to the kernel is zero: the strides are the ones
    read, which passed the check, followed by padding of ones. *)
Theorem stridedSliceGeneric_passes_no_zero_stride
  bD bM eD eM sD (inputData outputData : list Z) (outputShape : Shape) c x :
  c ∈ (generic bD bM eD eM sD inputData outputData outputShape).2 ->
  x ∈ strides c -> x <> 0.
Proof.
  intros (s & e & t & Hloop & _ & _ & ->)%generic_call_inv Hx.
  apply bounds_loop_shape in Hloop as (_ & _ & -> & Hnz). cbn in Hx.
  apply elem_of_app in Hx as [Hx | Hx].
  - apply list_elem_of_fmap in Hx as (idx & -> & Hidx).
    apply elem_of_reverse, elem_of_seq in Hidx. apply Hnz. lia.
  - apply elem_of_replicate_inv in Hx. by subst x.
Qed.

(** X4 -- The three buffers are read below the rank only: two calls whose
    begin, end and stride buffers agree on the indices below the rank do
    the same, whatever lies beyond. *)
Theorem stridedSliceGeneric_reads_below_rank
  bD bM eD eM sD bD' eD' sD' (inputData outputData : list Z)
  (outputShape : Shape) :
  (forall idx, (idx < getNumberOfDimensions inputShape)%nat ->
     bD idx = bD' idx /\ eD idx = eD' idx /\ sD idx = sD' idx) ->
  generic bD bM eD eM sD inputData outputData outputShape
  = generic bD' bM eD' eM sD' inputData outputData outputShape.
Proof.
  intros Hagree. unfold stridedSliceGeneric.
  rewrite (bounds_loop_agree bD bM eD eM sD bD' bM eD' eM sD'); [done | | |].
  - intros idx Hlt. by apply Hagree.
  - intros idx Hlt. split; [done |]. intros _. by apply Hagree.
  - intros idx Hlt. split; [done |]. intros _. by apply Hagree.
Qed.

(** X5 -- Where the begin (end) mask has the bit of a dimension set, the
    begin (end) value of that dimension is not looked at: two calls whose
    begin and end buffers differ only at masked dimensions do the same. *)
Theorem stridedSliceGeneric_masked_data_ignored
  bD bM eD eM sD bD' eD' (inputData outputData : list Z)
  (outputShape : Shape) :
  (getNumberOfDimensions inputShape <= 31)%nat ->
  (forall idx, (idx < getNumberOfDimensions inputShape)%nat ->
     Z.testbit bM (Z.of_nat idx) = true \/ bD idx = bD' idx) ->
  (forall idx, (idx < getNumberOfDimensions inputShape)%nat ->
     Z.testbit eM (Z.of_nat idx) = true \/ eD idx = eD' idx) ->
  generic bD bM eD eM sD inputData outputData outputShape
  = generic bD' bM eD' eM sD inputData outputData outputShape.
Proof.
  intros Hrank Hb He. unfold stridedSliceGeneric.
  rewrite (bounds_loop_agree bD bM eD eM sD bD' bM eD' eM sD); [done | done | |].
  - intros idx Hlt. split; [done |]. intros Hclear.
    pose proof (mask_bit_test bM idx ltac:(lia)) as Hbit.
    rewrite Hclear in Hbit. cbn in Hbit.
    destruct (Hb idx Hlt) as [Hset | ?]; [congruence | done].
  - intros idx Hlt. split; [done |]. intros Hclear.
    pose proof (mask_bit_test eM idx ltac:(lia)) as Hbit.
    rewrite Hclear in Hbit. cbn in Hbit.
    destruct (He idx Hlt) as [Hset | ?]; [congruence | done].
Qed.

(** X6 -- A shape of rank 0 reads no begin, end or stride at all: the
    outcome is decided by the operand type alone, and the kernel gets
    nothing but padding (begin 0, end 1, stride 1, four times) and the
    masks reversed over no bit. *)
Theorem stridedSliceGeneric_rank_zero
  bD bM eD eM sD (inputData outputData : list Z) (outputShape : Shape) :
  dimensions inputShape = [] ->
  generic bD bM eD eM sD inputData outputData outputShape
  = if decide (type inputShape = TENSOR_FLOAT32) then
      (true, [StridedSlice_call elem_float inputData
                (convertShapeToDims inputShape)
                (ReverseMaskBits bM 0) (ReverseMaskBits eM 0)
                [0; 0; 0; 0] [1; 1; 1; 1] [1; 1; 1; 1]
                outputData (convertShapeToDims outputShape)])
    else if decide (type inputShape = TENSOR_QUANT8_ASYMM) then
      (true, [StridedSlice_call elem_uint8 inputData
                (convertShapeToDims inputShape)
                (ReverseMaskBits bM 0) (ReverseMaskBits eM 0)
                [0; 0; 0; 0] [1; 1; 1; 1] [1; 1; 1; 1]
                outputData (convertShapeToDims outputShape)])
    else (false, []).
Proof.
  intros Hdims. unfold stridedSliceGeneric, getNumberOfDimensions.
  rewrite Hdims. reflexivity.
Qed.

(** X7 -- As long as [ClampedIndex] clamps an index into [0, dim] for a
    positive stride and into [-1, dim - 1] for a negative one, so do the
    bounds handed to the kernel: at the position of a dimension of size
    [d], begin and end lie in [0, d] when its stride is positive and in
    [-1, d - 1] when it is negative, whether they come from the masks or
    from the buffers. *)
Theorem stridedSliceGeneric_indices_in_range
  bD bM eD eM sD (inputData outputData : list Z) (outputShape : Shape)
  c (j : nat) (d : Z) :
  (forall index dim, 0 <= dim ->
     0 <= ClampedIndex index dim true <= dim
     /\ -1 <= ClampedIndex index dim false <= dim - 1) ->
  (forall x, x ∈ dimensions inputShape -> 0 <= x < 2 ^ 31) ->
  (getNumberOfDimensions inputShape <= 31)%nat ->
  c ∈ (generic bD bM eD eM sD inputData outputData outputShape).2 ->
  (j < getNumberOfDimensions inputShape)%nat ->
  dimensions inputShape !! (getNumberOfDimensions inputShape - 1 - j)%nat
  = Some d ->
  exists b e,
    starts c !! j = Some b /\ stops c !! j = Some e
    /\ (0 < sD (getNumberOfDimensions inputShape - 1 - j)%nat ->
        0 <= b <= d /\ 0 <= e <= d)
    /\ (sD (getNumberOfDimensions inputShape - 1 - j)%nat < 0 ->
        -1 <= b <= d - 1 /\ -1 <= e <= d - 1).
Proof.
  intros Hclamp Hdims Hrank (s & e & t & Hloop & Hs & He & _)%generic_call_inv
    Hj Hd.
  pose proof (bounds_loop_shape _ _ _ _ _ _ _ _ _ _ _ _ Hloop) as (_ & _ & _ & Hnz).
  rewrite (bounds_loop_described ClampedIndex inputShape bD bM eD eM sD _
             [] [] [] Hrank Hnz) in Hloop.
  cbn [app] in Hloop. simplify_eq.
  set (n := getNumberOfDimensions inputShape) in *.
  assert (Hlook : forall f : nat -> Z,
             (f <$> reverse (seq 0 n)) !! j = Some (f (n - 1 - j)%nat)).
  { intros f. rewrite list_lookup_fmap, reverse_lookup by (rewrite length_seq; lia).
    rewrite length_seq, lookup_seq_lt by lia. cbn. f_equal. f_equal. lia. }
  assert (Hin : 0 <= d < 2 ^ 31).
  { apply Hdims. by eapply list_elem_of_lookup_2. }
  assert (Hdim : to_int32 (getSizeOfDimension inputShape (n - 1 - j)) = d).
  { unfold getSizeOfDimension. rewrite Hd. cbn. unfold to_int32.
    rewrite Z.mod_small; lia. }
  assert (Hdim1 : to_int32 (d - 1) = d - 1).
  { unfold to_int32. rewrite Z.mod_small; lia. }
  destruct (Hclamp (bD (n - 1 - j)%nat) d ltac:(lia)) as [Hbp Hbn].
  destruct (Hclamp (eD (n - 1 - j)%nat) d ltac:(lia)) as [Hep Hen].
  eexists _, _.
  split; [rewrite Hs, lookup_app_l by (rewrite length_fmap, length_reverse,
                                          length_seq; lia); apply Hlook |].
  split; [rewrite He, lookup_app_l by (rewrite length_fmap, length_reverse,
                                          length_seq; lia); apply Hlook |].
  unfold described_begin, described_end. rewrite Hdim, Hdim1.
  split; intros Hsign.
  - assert ((0 <? sD (n - 1 - j)%nat) = true) as -> by (apply Z.ltb_lt; lia).
    destruct (Z.testbit bM _), (Z.testbit eM _); lia.
  - assert ((0 <? sD (n - 1 - j)%nat) = false) as -> by (apply Z.ltb_ge; lia).
    destruct (Z.testbit bM _), (Z.testbit eM _); lia.
Qed.

End StridedSliceCoverage.

(** [tflite_ClampedIndex] clamps as X7 asks of its collaborator. *)
Lemma tflite_ClampedIndex_clamps (index dim : Z) :
  (0 <= dim ->
   0 <= StridedSlice.tflite_ClampedIndex index dim true <= dim
   /\ -1 <= StridedSlice.tflite_ClampedIndex index dim false <= dim - 1)%Z.
Proof.
  intros Hdim. unfold StridedSlice.tflite_ClampedIndex, StridedSlice.Clamp.
  repeat match goal with
         | |- context [(?a <? ?b)%Z] => destruct (Z.ltb_spec a b)
         | |- context [(?a <=? ?b)%Z] => destruct (Z.leb_spec a b)
         end; lia.
Qed.

Lemma stridedSliceGeneric_vector_lengths_witness :
  exists c,
    (StridedSlice.stridedSliceGeneric StridedSlice.tflite_ClampedIndex
       StridedSlice.tflite_ReverseMaskBits (list Z) StridedSlice.dimensions
       (StridedSlice.mkShape StridedSlice.TENSOR_QUANT8_ASYMM [2; 3; 4; 5; 6]%Z)
       (fun _ => 0%Z) 0 (fun _ => 1%Z) 0 (fun _ => 1%Z)
       [] [] (StridedSlice.mkShape StridedSlice.TENSOR_QUANT8_ASYMM [1]%Z)).2
    = [c]
    /\ length (StridedSlice.starts c) = 5
    /\ length (StridedSlice.stops c) = 5
    /\ length (StridedSlice.strides c) = 5.
Proof.
  eexists. split; [reflexivity |].
  apply (stridedSliceGeneric_vector_lengths StridedSlice.tflite_ClampedIndex
           StridedSlice.tflite_ReverseMaskBits (list Z) StridedSlice.dimensions
           (StridedSlice.mkShape StridedSlice.TENSOR_QUANT8_ASYMM [2; 3; 4; 5; 6]%Z)
           (fun _ => 0%Z) 0%Z (fun _ => 1%Z) 0%Z (fun _ => 1%Z)
           [] [] (StridedSlice.mkShape StridedSlice.TENSOR_QUANT8_ASYMM [1]%Z)).
  apply list_elem_of_singleton. reflexivity.
Defined.

Lemma stridedSliceGeneric_passes_no_zero_stride_witness :
  exists c,
    (StridedSlice.stridedSliceGeneric StridedSlice.tflite_ClampedIndex
       StridedSlice.tflite_ReverseMaskBits (list Z) StridedSlice.dimensions
       (StridedSlice.mkShape StridedSlice.TENSOR_FLOAT32 [2; 3]%Z)
       (fun idx => nth idx [0; 2]%Z 0%Z) 2
       (fun idx => nth idx [2; 0]%Z 0%Z) 1
       (fun idx => nth idx [1; -1]%Z 0%Z)
       [] [] (StridedSlice.mkShape StridedSlice.TENSOR_FLOAT32 [2; 3]%Z)).2
    = [c]
    /\ StridedSlice.strides c = [-1; 1; 1; 1]%Z
    /\ Forall (fun x => x <> 0%Z) (StridedSlice.strides c).
Proof.
  eexists. split; [reflexivity |]. split; [reflexivity |].
  apply Forall_forall. intros x Hx.
  apply (stridedSliceGeneric_passes_no_zero_stride
           StridedSlice.tflite_ClampedIndex
           StridedSlice.tflite_ReverseMaskBits (list Z) StridedSlice.dimensions
           (StridedSlice.mkShape StridedSlice.TENSOR_FLOAT32 [2; 3]%Z)
           (fun idx => nth idx [0; 2]%Z 0%Z) 2%Z
           (fun idx => nth idx [2; 0]%Z 0%Z) 1%Z
           (fun idx => nth idx [1; -1]%Z 0%Z)
           [] [] (StridedSlice.mkShape StridedSlice.TENSOR_FLOAT32 [2; 3]%Z)
           _ x (proj2 (list_elem_of_singleton _ _) eq_refl) Hx).
Defined.

Lemma stridedSliceGeneric_reads_below_rank_witness :
  StridedSlice.stridedSliceGeneric StridedSlice.tflite_ClampedIndex
    StridedSlice.tflite_ReverseMaskBits (list Z) StridedSlice.dimensions
    (StridedSlice.mkShape StridedSlice.TENSOR_FLOAT32 [2; 3]%Z)
    (fun idx => nth idx [0; 1]%Z 0%Z) 0
    (fun idx => nth idx [2; 3]%Z 0%Z) 0
    (fun idx => nth idx [1; 1]%Z 0%Z)
    [] [] (StridedSlice.mkShape StridedSlice.TENSOR_FLOAT32 [2; 2]%Z)
  = StridedSlice.stridedSliceGeneric StridedSlice.tflite_ClampedIndex
      StridedSlice.tflite_ReverseMaskBits (list Z) StridedSlice.dimensions
      (StridedSlice.mkShape StridedSlice.TENSOR_FLOAT32 [2; 3]%Z)
      (fun idx => nth idx [0; 1; 7]%Z 9%Z) 0
      (fun idx => nth idx [2; 3; 8]%Z 9%Z) 0
      (fun idx => nth idx [1; 1; 0]%Z 0%Z)
      [] [] (StridedSlice.mkShape StridedSlice.TENSOR_FLOAT32 [2; 2]%Z).
Proof.
  apply stridedSliceGeneric_reads_below_rank.
  intros [| [| idx]]; cbn; intros; (done || lia).
Defined.

Lemma stridedSliceGeneric_masked_data_ignored_witness :
  StridedSlice.stridedSliceGeneric StridedSlice.tflite_ClampedIndex
    StridedSlice.tflite_ReverseMaskBits (list Z) StridedSlice.dimensions
    (StridedSlice.mkShape StridedSlice.TENSOR_FLOAT32 [2; 3]%Z)
    (fun idx => nth idx [0; 2]%Z 0%Z) 2
    (fun idx => nth idx [2; 0]%Z 0%Z) 1
    (fun idx => nth idx [1; -1]%Z 0%Z)
    [] [] (StridedSlice.mkShape StridedSlice.TENSOR_FLOAT32 [2; 3]%Z)
  = StridedSlice.stridedSliceGeneric StridedSlice.tflite_ClampedIndex
      StridedSlice.tflite_ReverseMaskBits (list Z) StridedSlice.dimensions
      (StridedSlice.mkShape StridedSlice.TENSOR_FLOAT32 [2; 3]%Z)
      (fun idx => nth idx [0; -50]%Z 0%Z) 2
      (fun idx => nth idx [77; 0]%Z 0%Z) 1
      (fun idx => nth idx [1; -1]%Z 0%Z)
      [] [] (StridedSlice.mkShape StridedSlice.TENSOR_FLOAT32 [2; 3]%Z).
Proof.
  apply stridedSliceGeneric_masked_data_ignored.
  - cbn. lia.
  - intros [| [| idx]]; cbn; intros; first [by right | by left | lia].
  - intros [| [| idx]]; cbn; intros; first [by right | by left | lia].
Defined.

Lemma stridedSliceGeneric_rank_zero_witness :
  StridedSlice.stridedSliceGeneric StridedSlice.tflite_ClampedIndex
    StridedSlice.tflite_ReverseMaskBits (list Z) StridedSlice.dimensions
    (StridedSlice.mkShape StridedSlice.TENSOR_QUANT8_ASYMM [])
    (fun _ => 5%Z) 3 (fun _ => 6%Z) 3 (fun _ => 0%Z)
    [7%Z] [0%Z] (StridedSlice.mkShape StridedSlice.TENSOR_QUANT8_ASYMM [])
  = (true,
     [StridedSlice.StridedSlice_call StridedSlice.elem_uint8 [7%Z] []
        0 0 [0; 0; 0; 0]%Z [1; 1; 1; 1]%Z [1; 1; 1; 1]%Z [0%Z] []]).
Proof.
  exact (stridedSliceGeneric_rank_zero StridedSlice.tflite_ClampedIndex
           StridedSlice.tflite_ReverseMaskBits (list Z) StridedSlice.dimensions
           (StridedSlice.mkShape StridedSlice.TENSOR_QUANT8_ASYMM [])
           (fun _ => 5%Z) 3%Z (fun _ => 6%Z) 3%Z (fun _ => 0%Z)
           [7%Z] [0%Z] (StridedSlice.mkShape StridedSlice.TENSOR_QUANT8_ASYMM [])
           eq_refl).
Defined.

Lemma stridedSliceGeneric_indices_in_range_witness :
  exists c b e,
    (StridedSlice.stridedSliceGeneric StridedSlice.tflite_ClampedIndex
       StridedSlice.tflite_ReverseMaskBits (list Z) StridedSlice.dimensions
       (StridedSlice.mkShape StridedSlice.TENSOR_FLOAT32 [2; 3]%Z)
       (fun idx => nth idx [0; 9]%Z 0%Z) 0
       (fun idx => nth idx [9; -9]%Z 0%Z) 0
       (fun idx => nth idx [1; -1]%Z 0%Z)
       [] [] (StridedSlice.mkShape StridedSlice.TENSOR_FLOAT32 [2; 3]%Z)).2
    = [c]
    /\ StridedSlice.starts c !! 0 = Some b
    /\ StridedSlice.stops c !! 0 = Some e
    /\ (-1 <= b <= 3 - 1 /\ -1 <= e <= 3 - 1)%Z.
Proof.
  set (c := StridedSlice.StridedSlice_call StridedSlice.elem_float []
              [2; 3]%Z 0 0 [2; 0; 0; 0]%Z [-1; 2; 1; 1]%Z [-1; 1; 1; 1]%Z
              [] [2; 3]%Z).
  exists c.
  edestruct (stridedSliceGeneric_indices_in_range
               StridedSlice.tflite_ClampedIndex
               StridedSlice.tflite_ReverseMaskBits (list Z)
               StridedSlice.dimensions
               (StridedSlice.mkShape StridedSlice.TENSOR_FLOAT32 [2; 3]%Z)
               (fun idx => nth idx [0; 9]%Z 0%Z) 0%Z
               (fun idx => nth idx [9; -9]%Z 0%Z) 0%Z
               (fun idx => nth idx [1; -1]%Z 0%Z)
               [] [] (StridedSlice.mkShape StridedSlice.TENSOR_FLOAT32 [2; 3]%Z)
               c 0 3%Z)
    as (b & e & Hb & He & _ & Hneg).
  - apply tflite_ClampedIndex_clamps.
  - intros x Hx. apply list_elem_of_In in Hx. cbn in Hx.
    destruct Hx as [<- | [<- | []]]; lia.
  - cbn. lia.
  - apply list_elem_of_singleton. reflexivity.
  - cbn. lia.
  - reflexivity.
  - exists b, e. split; [reflexivity |]. split; [exact Hb |].
    split; [exact He |]. apply Hneg. cbn. lia.
Defined.

(* ===================================================================== *)
(** ** More on [wait_for]: what it leaves alone, and calling it again *)
(* ===================================================================== *)

Section CallbackCoverage.
Import Callbacks.

(** Whatever status line 382 gives to the two outcomes of the wait. *)
Context (to_cv_status : bool -> cv_status).

Local Abbreviation wait_for := (Callbacks.wait_for to_cv_status).

(** A second join finds nothing to do. *)
Lemma join_thread_locked_again this :
  join_thread_locked (join_thread_locked this).1
  = ((join_thread_locked this).1, []).
Proof.
  unfold join_thread_locked.
  destruct (mThread this) eqn:Hth; cbn; by rewrite ?Hth.
Qed.


(** X9 -- [wait_for] can be called again.  Once a [wait_for] has returned,
    the same call made again on the object it left, no earlier in its
    wait, returns the same status at once, joins nothing more and leaves
    the object as it is; this holds whatever status line 382 gives to the
    outcome of the wait. *)
Theorem wait_for_again
  (timeout_duration elapsed : nat) (this : CallbackBase)
  (status : cv_status) (this' : CallbackBase) (effects : list effect) :
  wait_for timeout_duration elapsed this = Some (status, this', effects) ->
  forall later, elapsed <= later ->
    wait_for timeout_duration later this' = Some (status, this', []).
Proof.
  intros H later Hlater.
  apply wait_for_inv in H as (Hstatus & Hd & H).
  assert (Hn : mNotified this' = mNotified this).
  { destruct (decide _); [| by simplify_eq].
    pose proof (join_thread_locked_fields this) as [Hj _].
    by rewrite <- H in Hj. }
  assert (Hsame : (if decide (status ≠ timeout) then join_thread_locked this'
                   else (this', [])) = (this', [])).
  { destruct (decide _); [| done].
    pose proof (join_thread_locked_again this) as Hj. by rewrite <- H in Hj. }
  destruct (mNotified this) eqn:Hflag.
  - rewrite wait_for_notified by congruence. rewrite <- Hstatus.
    by rewrite Hsame.
  - rewrite wait_for_pending by congruence.
    rewrite bool_decide_true by (specialize (Hd eq_refl); lia).
    rewrite <- Hstatus. by rewrite Hsame.
Qed.

End CallbackCoverage.


(** Both readings of line 382: the second call returns what the first one
    did, and joins nothing. *)
Lemma wait_for_again_witness :
  let pending := {| Callbacks.mNotified := false; Callbacks.mPostWork := None;
                    Callbacks.mThread := Callbacks.thread_bound 4 |} in
  let reclaimed := {| Callbacks.mNotified := false; Callbacks.mPostWork := None;
                      Callbacks.mThread := Callbacks.thread_reclaimed 4 |} in
  Callbacks.wait_for Callbacks.cv_status_by_value 3 3 pending
  = Some (Callbacks.no_timeout, reclaimed, [Callbacks.joined 4])
  /\ Callbacks.wait_for Callbacks.cv_status_by_value 3 8 reclaimed
     = Some (Callbacks.no_timeout, reclaimed, [])
  /\ Callbacks.wait_for Callbacks.cv_status_as_documented 3 3 pending
     = Some (Callbacks.timeout, pending, [])
  /\ Callbacks.wait_for Callbacks.cv_status_as_documented 3 8 pending
     = Some (Callbacks.timeout, pending, []).
Proof.
  intros pending reclaimed.
  assert (H1 : Callbacks.wait_for Callbacks.cv_status_by_value 3 3 pending
               = Some (Callbacks.no_timeout, reclaimed, [Callbacks.joined 4]))
    by reflexivity.
  assert (H2 : Callbacks.wait_for Callbacks.cv_status_as_documented 3 3 pending
               = Some (Callbacks.timeout, pending, [])) by reflexivity.
  split; [exact H1 |].
  split; [apply (wait_for_again _ 3 3 pending _ _ _ H1 8); lia |].
  split; [exact H2 |].
  apply (wait_for_again _ 3 3 pending _ _ _ H2 8). lia.
Defined.
